(** * autofocus: frame analysis pipeline of [src/main.cpp]

    A shallow embedding of the program: the frame-number parser, the
    sharpness measure, the directory walk with its sort, the result
    writer and the driver, followed by the properties established for
    them. *)

From Stdlib Require Import ZArith NArith QArith Ascii String.
From stdpp Require Import base numbers option list sorting gmap strings.

Local Open Scope N_scope.

(** ** Machine integers: [std::size_t]

    [std::size_t] is taken to be 64 bits wide (LP64).  Sums and
    differences computed in that type wrap around. *)

Definition SIZE_BITS : N := 64.
Definition SIZE_MAX : N := 2 ^ SIZE_BITS - 1.

Definition size_add (a b : N) : N := (a + b) mod 2 ^ SIZE_BITS.
Definition size_sub (a b : N) : N :=
  Z.to_N ((Z.of_N a - Z.of_N b) mod 2 ^ Z.of_N SIZE_BITS).

(** ** Strings and paths

    A [std::u8string] is a sequence of bytes; the model uses [string]
    and goes through [list ascii] for slicing. *)

Abbreviation chars := String.list_ascii_of_string.
Abbreviation of_chars := String.string_of_list_ascii.

Definition str_length (s : string) : N := N.of_nat (String.length s).

(** [after_last sep s cur]: the part of the text after the last [sep],
    [cur] being the candidate found so far. *)
Fixpoint after_last (sep : ascii) (s cur : list ascii) : list ascii :=
  match s with
  | [] => cur
  | c :: s' =>
      if Ascii.eqb c sep then after_last sep s' s' else after_last sep s' cur
  end.

(** [std::filesystem::path::filename] in the generic (POSIX) format: the
    component after the last directory separator. *)
Definition filename_chars (p : list ascii) : list ascii :=
  after_last "/"%char p p.

(** [from_last sep s cur]: the suffix of the text that starts at the last
    [sep], if there is one. *)
Fixpoint from_last (sep : ascii) (s : list ascii) (cur : option (list ascii))
  : option (list ascii) :=
  match s with
  | [] => cur
  | c :: s' =>
      if Ascii.eqb c sep then from_last sep s' (Some (c :: s'))
      else from_last sep s' cur
  end.

(** [std::filesystem::path::extension]: the suffix of the filename that
    starts at its rightmost period; empty for the special names dot and
    dot-dot, for a filename without a period, and when the only period
    is the first character of the filename. *)
Definition extension_chars (p : list ascii) : list ascii :=
  match filename_chars p with
  | [] => []
  | c :: f' =>
      if bool_decide (c :: f' = ["."; "."]%char) then []
      else default [] (from_last "."%char f' None)
  end.

Definition extension (p : string) : string := of_chars (extension_chars (chars p)).

(** ** [std::from_chars] for an unsigned integer in base 10 *)

Inductive errc := errc_ok | invalid_argument | result_out_of_range.

Global Instance errc_eq_dec : EqDecision errc.
Proof. solve_decision. Defined.

Record from_chars_result := mk_from_chars_result {
  ptr : nat;   (* offset of the first character not consumed *)
  ec : errc
}.

Definition is_digit (c : ascii) : bool :=
  (48 <=? N_of_ascii c) && (N_of_ascii c <=? 57).

Definition digit_value (c : ascii) : N := N_of_ascii c - 48.

Fixpoint take_digits (s : list ascii) : list ascii :=
  match s with
  | [] => []
  | c :: s' => if is_digit c then c :: take_digits s' else []
  end.

Definition decimal_value (ds : list ascii) : N :=
  fold_left (fun acc c => 10 * acc + digit_value c) ds 0.

(** The pattern of an unsigned integer is a non-empty run of digits (no
    sign, no white space).  The whole run is consumed; [value] is
    written only when the run is non-empty and its value fits. *)
Definition from_chars (s : list ascii) (value : N) : from_chars_result * N :=
  match take_digits s with
  | [] => (mk_from_chars_result 0 invalid_argument, value)
  | ds =>
      if decimal_value ds <=? SIZE_MAX
      then (mk_from_chars_result (length ds) errc_ok, decimal_value ds)
      else (mk_from_chars_result (length ds) result_out_of_range, value)
  end.

(** ** Exceptions

    Every failure of the program is a [std::runtime_error]; the
    constructors name the throw sites after the error kinds of the
    specification and carry the path put into the message. *)

Inductive exception :=
  | InvalidFileNameError (str : string)
  | FrameNumberParseError (str : string)
  | ImageDecodeError (filepath : string)
  | InvalidDirectoryError (directory : string)
  | OutputWriteError (filepath : string)
  | InvalidArgumentsError.

Global Instance exception_eq_dec : EqDecision exception.
Proof. solve_decision. Defined.

Inductive result (A : Type) :=
  | Ok (a : A)
  | Throw (e : exception).
Arguments Ok {A} a.
Arguments Throw {A} e.

(** ** [extract_frame_number] *)

Definition extract_frame_number (filepath : string) (frame_number_digits : N)
  : result N :=
  let extensionSize := str_length (extension filepath) in
  let str := filepath in
  if str_length str <=? size_add extensionSize frame_number_digits
  then Throw (InvalidFileNameError str)
  else
    let start_index :=
      size_sub (size_sub (str_length str) extensionSize) frame_number_digits in
    let frame_number := 0 in
    let '(res, frame_number) :=
      from_chars (drop (N.to_nat start_index) (chars str)) frame_number in
    if bool_decide (ec res ≠ errc_ok)
    then Throw (FrameNumberParseError str)
    else Ok frame_number.

(** The default argument [frame_number_digits = 5]. *)
Definition default_frame_number_digits : N := 5.


(** ** Result of frame analysis

    A [double] is modelled by the rational it denotes; the program only
    produces doubles converted from 16-bit integers, which are exact. *)

Definition double : Type := Q.

Record frame_info := mk_frame_info {
  number : N;          (* frame number *)
  sharpness : double   (* frame sharpness *)
}.

(** ** Matrices of the imaging library

    A [cv::Mat] is kept as its dimensions, its channel count, the depth
    of its samples and the samples in row-major order. *)

Inductive depth := CV_8U | CV_8S | CV_16U | CV_16S | CV_32S.

Definition depth_min (d : depth) : Z :=
  match d with
  | CV_8U => 0 | CV_8S => -128 | CV_16U => 0 | CV_16S => -32768
  | CV_32S => -2147483648
  end%Z.

Definition depth_max (d : depth) : Z :=
  match d with
  | CV_8U => 255 | CV_8S => 127 | CV_16U => 65535 | CV_16S => 32767
  | CV_32S => 2147483647
  end%Z.

(** [cv::saturate_cast]: clamp to the range of the destination depth. *)
Definition saturate_cast (d : depth) (z : Z) : Z :=
  Z.max (depth_min d) (Z.min (depth_max d) z).

Record Mat := mk_Mat {
  rows : nat;
  cols : nat;
  channels : nat;
  elem_depth : depth;
  data : list Z
}.

Definition Mat_wf (m : Mat) : Prop :=
  length (data m) = (rows m * cols m * channels m)%nat.

(** A default-constructed [cv::Mat]. *)
Definition empty_Mat : Mat := mk_Mat 0 0 1 CV_8U [].

Inductive BorderTypes :=
  | BORDER_CONSTANT | BORDER_REPLICATE | BORDER_REFLECT | BORDER_WRAP
  | BORDER_REFLECT_101.
Definition BORDER_DEFAULT : BorderTypes := BORDER_REFLECT_101.

Inductive ColorConversionCodes := COLOR_BGR2GRAY.

(** The operators of the imaging library that the program calls.  They
    are external to the program: the class fixes their signatures and
    the part of their documented contract that the program relies on
    (what is returned is a matrix of the documented shape).
    [laplacian_response] is the response of the Laplacian filter before
    it is stored at the requested depth. *)
Class OpenCV := {
  imdecode : string -> option Mat;
  GaussianBlur : Mat -> nat * nat -> double -> double -> BorderTypes -> Mat;
  cvtColor : Mat -> ColorConversionCodes -> Mat;
  laplacian_response : Mat -> Z -> double -> double -> BorderTypes -> list Z;
  imdecode_wf : forall bytes m,
    imdecode bytes = Some m -> Mat_wf m /\ channels m = 3%nat;
  GaussianBlur_wf : forall src ksize sx sy b,
    Mat_wf src ->
    let dst := GaussianBlur src ksize sx sy b in
    Mat_wf dst /\ rows dst = rows src /\ cols dst = cols src /\
    channels dst = channels src;
  cvtColor_wf : forall src,
    Mat_wf src -> channels src = 3%nat ->
    let dst := cvtColor src COLOR_BGR2GRAY in
    Mat_wf dst /\ rows dst = rows src /\ cols dst = cols src /\
    channels dst = 1%nat;
  laplacian_response_length : forall src ksize scale delta b,
    Mat_wf src ->
    length (laplacian_response src ksize scale delta b) = length (data src)
}.

(** The text [fmt::format] produces for a [double] under [{}]. *)
Class FmtLib := {
  format_double : double -> string;
  format_double_no_newline : forall x, "010"%char ∉ chars (format_double x)
}.

(** [cv::Laplacian]: the filter response stored at depth [ddepth]. *)
Definition Laplacian `{OpenCV} (src : Mat) (ddepth : depth) (ksize : Z)
    (scale delta : double) (b : BorderTypes) : Mat :=
  {| rows := rows src; cols := cols src; channels := channels src;
     elem_depth := ddepth;
     data := saturate_cast ddepth <$> laplacian_response src ksize scale delta b |}.

Definition min_elem (l : list Z) : Z :=
  match l with [] => 0%Z | x :: l' => fold_left Z.min l' x end.
Definition max_elem (l : list Z) : Z :=
  match l with [] => 0%Z | x :: l' => fold_left Z.max l' x end.

(** [cv::minMaxLoc]: the global minimum and maximum, as doubles (both 0
    for a matrix without elements).  The two locations are not used by
    the program and are left out. *)
Definition minMaxLoc (src : Mat) : double * double :=
  (inject_Z (min_elem (data src)), inject_Z (max_elem (data src))).

(** ** The world: file system and observable events *)

Inductive node :=
  | Directory (entries : list string)   (* names, in enumeration order *)
  | RegularFile (content : string).

Inductive event :=
  | ev_imread (filename : string)
  | ev_ofstream (filename : string)
  | ev_cout (text : string).

Global Instance event_eq_dec : EqDecision event.
Proof. solve_decision. Defined.

(** [unwritable] holds the paths at which opening an output stream
    fails (missing parent directory, permissions). *)
Record world := mk_world {
  fs : gmap string node;
  unwritable : gset string;
  trace : list event
}.

Definition record_event (e : event) (w : world) : world :=
  mk_world (fs w) (unwritable w) (trace w ++ [e]).

Definition set_file (p content : string) (w : world) : world :=
  mk_world (<[p := RegularFile content]> (fs w)) (unwritable w) (trace w).

(** ** Computations: state passing with exceptions *)

Definition M (A : Type) : Type := world -> result A * world.

Definition ret {A} (a : A) : M A := fun w => (Ok a, w).
Definition throw {A} (e : exception) : M A := fun w => (Throw e, w).
Definition lift {A} (r : result A) : M A := fun w => (r, w).
Definition bind {A B} (m : M A) (k : A -> M B) : M B :=
  fun w =>
    match m w with
    | (Ok a, w') => k a w'
    | (Throw e, w') => (Throw e, w')
    end.

Notation "x <- m ;; k" := (bind m (fun x => k))
  (at level 100, m at next level, right associativity).
Notation "m ;;; k" := (bind m (fun _ => k))
  (at level 100, right associativity).

(** ** Text formatting *)

Definition TAB : string := String "009"%char EmptyString.
Definition NEWLINE : string := String "010"%char EmptyString.

Definition digit_char (d : N) : ascii := ascii_of_N (48 + d).

(** The decimal digits of [n], most significant first, put in front of
    [acc]. *)
Fixpoint decimal_digits (fuel : nat) (n : N) (acc : list ascii) : list ascii :=
  match fuel with
  | O => acc
  | S fuel' =>
      let acc' := digit_char (n mod 10) :: acc in
      if n / 10 =? 0 then acc' else decimal_digits fuel' (n / 10) acc'
  end.

(** The text [fmt::format] produces for a [std::size_t] under [{}]. *)
Definition format_size_t (n : N) : string :=
  of_chars (decimal_digits (S (N.to_nat (N.log2 n))) n []).

(** ** [std::sort] with a comparator

    The library leaves the algorithm and the order of equivalent
    elements open; the model sorts by insertion.  The properties below
    use only that the result is a sorted permutation of the input. *)
Section std_sort.
Context {A : Type} (comp : A -> A -> bool).

Fixpoint sort_insert (x : A) (l : list A) : list A :=
  match l with
  | [] => [x]
  | y :: l' => if comp y x then y :: sort_insert x l' else x :: y :: l'
  end.

Definition std_sort (l : list A) : list A := foldr sort_insert [] l.
End std_sort.

(** ** The program *)

Definition EXIT_SUCCESS : Z := 0.
Definition EXIT_FAILURE : Z := 1.

(** [e.what()].  The first throw site hands the format text and the
    path to the constructor as two arguments; its message is rendered
    here the way the other sites format theirs. *)
Definition what (e : exception) : string :=
  match e with
  | InvalidFileNameError str => "invalid filename: '" +:+ str +:+ "'"
  | FrameNumberParseError str =>
      "unable to parse frame number from file '" +:+ str +:+ "'"
  | ImageDecodeError filepath =>
      "error while opening image '" +:+ filepath +:+ "'"
  | InvalidDirectoryError directory =>
      "invalid data directory '" +:+ directory +:+ "'."
  | OutputWriteError filepath =>
      "unable to open result file '" +:+ filepath +:+ "'"
  | InvalidArgumentsError =>
      "invalid arguments. Usage:" +:+ NEWLINE +:+
      "autofocus <frames_directory> <result_filepath"
  end.

Section program.
Context `{OpenCV} `{FmtLib}.

(** [cv::imread] with its default flags: the decoded image, or an
    empty matrix when the file cannot be read or decoded. *)
Definition imread (filename : string) : M Mat :=
  fun w =>
    (Ok match fs w !! filename with
        | Some (RegularFile bytes) => default empty_Mat (imdecode bytes)
        | _ => empty_Mat
        end,
     record_event (ev_imread filename) w).

Definition read_image (filepath : string) : M Mat :=
  image <- imread filepath ;;
  if (cols image =? 0)%nat || (rows image =? 0)%nat
  then throw (ImageDecodeError filepath)
  else ret image.

Definition calculate_sharpness (filepath : string) : M double :=
  image <- read_image filepath ;;
  (* apply gaussian blur to suppress noise and convert to gray *)
  let image := GaussianBlur image (3, 3)%nat 0%Q 0%Q BORDER_DEFAULT in
  let image := cvtColor image COLOR_BGR2GRAY in
  (* use laplacian folding for edge detection *)
  let filtered_image := Laplacian image CV_16S 3 1%Q 0%Q BORDER_DEFAULT in
  (* find maximum pixel value in the filtered image *)
  let '(min_val, max_val) := minMaxLoc filtered_image in
  ret max_val.

(** The members are initialised in the order of the braced list:
    first [number], then [sharpness]. *)
Definition analyse_frame (filepath : string) : M frame_info :=
  number <- lift (extract_frame_number filepath default_frame_number_digits) ;;
  sharpness <- calculate_sharpness filepath ;;
  ret (mk_frame_info number sharpness).

Definition is_directory (p : string) : M bool :=
  fun w =>
    (Ok match fs w !! p with Some (Directory _) => true | _ => false end, w).

(** [directory / name] *)
Definition path_append (directory name : string) : string :=
  match last (chars directory) with
  | Some "/"%char | None => directory +:+ name
  | Some _ => directory +:+ "/" +:+ name
  end.

(** The paths [std::filesystem::directory_iterator] yields, in the
    order of enumeration. *)
Definition directory_iterator (directory : string) : M (list string) :=
  fun w =>
    (Ok match fs w !! directory with
        | Some (Directory entries) => path_append directory <$> entries
        | _ => []
        end, w).

(** The loop body [result.emplace_back(analyse_frame(entry.path()))]. *)
Fixpoint for_each_entry (entries : list string) (result : list frame_info)
  : M (list frame_info) :=
  match entries with
  | [] => ret result
  | entry :: rest =>
      frame <- analyse_frame entry ;;
      for_each_entry rest (result ++ [frame])
  end.

Definition frame_less (lhs_frame rhs_frame : frame_info) : bool :=
  number lhs_frame <? number rhs_frame.

Definition analyse_frames (directory : string) : M (list frame_info) :=
  is_dir <- is_directory directory ;;
  if negb is_dir then throw (InvalidDirectoryError directory)
  else
    entries <- directory_iterator directory ;;
    result <- for_each_entry entries [] ;;
    (* directory_iterator does not iterate sorted *)
    ret (std_sort frame_less result).

(** Opening a [std::ofstream]: fails on a directory and on an
    unwritable path; otherwise the file exists afterwards and is
    empty. *)
Definition ofstream_open (filename : string) : M bool :=
  fun w =>
    match fs w !! filename with
    | Some (Directory _) => (Ok false, w)
    | _ =>
        if bool_decide (filename ∈ unwritable w) then (Ok false, w)
        else (Ok true,
              record_event (ev_ofstream filename)
                (set_file filename EmptyString w))
    end.

(** [ofs << text] *)
Definition ofstream_write (filename text : string) : M unit :=
  fun w =>
    (Ok tt,
     match fs w !! filename with
     | Some (RegularFile content) => set_file filename (content +:+ text) w
     | _ => w
     end).

Definition format_frame (frame : frame_info) : string :=
  format_size_t (number frame) +:+ TAB +:+
  format_double (sharpness frame) +:+ NEWLINE.

Fixpoint write_frames (filename : string) (frames : list frame_info) : M unit :=
  match frames with
  | [] => ret tt
  | frame :: rest =>
      ofstream_write filename (format_frame frame) ;;;
      write_frames filename rest
  end.

Definition write_results (filepath : string) (frames : list frame_info)
  : M unit :=
  ofs <- ofstream_open filepath ;;
  if negb ofs then throw (OutputWriteError filepath)
  else write_frames filepath frames.

Record parsed_args := mk_parsed_args {
  frames_directory : string;
  result_file : string
}.

Definition parse_args (argv : list string) : M parsed_args :=
  match argv with
  | [_; a1; a2] => ret (mk_parsed_args a1 a2)
  | _ => throw InvalidArgumentsError
  end.

Definition main (argv : list string) (w : world) : Z * world :=
  let run :=
    args <- parse_args argv ;;
    frames <- analyse_frames (frames_directory args) ;;
    write_results (result_file args) frames in
  match run w with
  | (Ok _, w') => (EXIT_SUCCESS, w')
  | (Throw e, w') =>
      (EXIT_FAILURE, record_event (ev_cout (what e +:+ NEWLINE)) w')
  end.
End program.

(** ** Notions used to state the properties *)

(** The [W] characters immediately preceding the extension. *)
Definition digit_field (p : string) (W : N) : list ascii :=
  let cs := chars p in
  take (N.to_nat W)
    (drop (length cs - length (extension_chars cs) - N.to_nat W) cs).

(** The decimal representation of [n], padded with zeros on the left to
    the width [W] (the [%05d] of the frame names for [W = 5]). *)
Definition zero_padded (W n : N) : string :=
  let ds := chars (format_size_t n) in
  of_chars (replicate (N.to_nat W - length ds) "0"%char ++ ds).

(** The image [cv::imread] hands to the program for a path. *)
Definition image_at `{OpenCV} (w : world) (p : string) : Mat :=
  match fs w !! p with
  | Some (RegularFile bytes) => default empty_Mat (imdecode bytes)
  | _ => empty_Mat
  end.

(** The signed Laplacian response grid of an image: blur, grayscale,
    Laplacian at 16-bit signed depth. *)
Definition response_grid `{OpenCV} (image : Mat) : Mat :=
  Laplacian
    (cvtColor (GaussianBlur image (3, 3)%nat 0%Q 0%Q BORDER_DEFAULT)
       COLOR_BGR2GRAY)
    CV_16S 3 1%Q 0%Q BORDER_DEFAULT.

(** The lines of a text, each terminated by a newline. *)
Fixpoint lines (s : list ascii) : list (list ascii) :=
  match s with
  | [] => []
  | c :: s' =>
      if Ascii.eqb c "010"%char then [] :: lines s'
      else match lines s' with
           | [] => []
           | l :: ls => (c :: l) :: ls
           end
  end.

(** The part of a line in front of the first [sep]. *)
Fixpoint until (sep : ascii) (s : list ascii) : list ascii :=
  match s with
  | [] => []
  | c :: s' => if Ascii.eqb c sep then [] else c :: until sep s'
  end.

(** The first tab-separated field of every line of a text. *)
Definition first_fields (content : string) : list string :=
  (fun l => of_chars (until "009"%char l)) <$> lines (chars content).

Definition concat_strings (l : list string) : string :=
  foldr String.append EmptyString l.

(** The directory entries of a path, as [directory_iterator] yields them. *)
Definition entry_paths (w : world) (directory : string) : list string :=
  match fs w !! directory with
  | Some (Directory entries) => path_append directory <$> entries
  | _ => []
  end.

(** * Properties *)

(** ** Strings as character lists *)

Lemma chars_length (s : string) : String.length s = length (chars s).
Proof. induction s as [|c s IH]; simpl; congruence. Qed.

Lemma chars_app (s t : string) : chars (s +:+ t) = chars s ++ chars t.
Proof. induction s as [|c s IH]; simpl; [done | by rewrite IH]. Qed.

Lemma chars_of_chars (l : list ascii) : chars (of_chars l) = l.
Proof. apply String.list_ascii_of_string_of_list_ascii. Qed.

Lemma chars_inj (s t : string) : chars s = chars t -> s = t.
Proof.
  intros E. rewrite <- (String.string_of_list_ascii_of_string s),
    <- (String.string_of_list_ascii_of_string t). by rewrite E.
Qed.

Lemma str_length_chars (s : string) : str_length s = N.of_nat (length (chars s)).
Proof. unfold str_length. by rewrite chars_length. Qed.

(** ** The extension of a path *)

Lemma after_last_suffix sep s cur :
  s `suffix_of` cur -> after_last sep s cur `suffix_of` cur.
Proof.
  revert cur. induction s as [|c s IH]; intros cur Hs; simpl; [done|].
  assert (s `suffix_of` cur) as Hs'.
  { etrans; [apply suffix_cons_r; reflexivity | exact Hs]. }
  destruct (Ascii.eqb c sep).
  - etrans; [apply IH; reflexivity | exact Hs'].
  - by apply IH.
Qed.

Lemma filename_chars_suffix p : filename_chars p `suffix_of` p.
Proof. apply after_last_suffix. reflexivity. Qed.

Lemma from_last_spec sep s cur e :
  from_last sep s cur = Some e ->
  cur = Some e \/ (e `suffix_of` s /\ exists e', e = sep :: e').
Proof.
  revert cur. induction s as [|c s IH]; intros cur; simpl.
  - by left.
  - destruct (Ascii.eqb c sep) eqn:Hc; intros He; apply IH in He.
    + apply Ascii.eqb_eq in Hc as ->. right.
      destruct He as [He | [Hsuf He]].
      * injection He as <-. split; [reflexivity | eauto].
      * split; [by apply suffix_cons_r | done].
    + destruct He as [He | [Hsuf He]]; [by left | right].
      split; [by apply suffix_cons_r | done].
Qed.

(** The extension is a suffix of the path, and it is empty or starts
    with a period. *)
Lemma extension_chars_spec p :
  extension_chars p `suffix_of` p /\
  (extension_chars p = [] \/ exists e', extension_chars p = "."%char :: e').
Proof.
  unfold extension_chars.
  pose proof (filename_chars_suffix p) as Hf.
  destruct (filename_chars p) as [|c f'] eqn:Ef.
  { split; [apply suffix_nil | by left]. }
  case_bool_decide.
  { split; [apply suffix_nil | by left]. }
  destruct (from_last "."%char f' None) as [e|] eqn:He; simpl.
  - apply from_last_spec in He as [He | [Hsuf He]]; [done|].
    split; [|by right].
    etrans; [exact Hsuf|]. etrans; [|exact Hf]. by apply suffix_cons_r.
  - split; [apply suffix_nil | by left].
Qed.

Lemma extension_chars_eq (p : string) : chars (extension p) = extension_chars (chars p).
Proof. unfold extension. apply chars_of_chars. Qed.

(** ** Digits *)

Lemma is_digit_period : is_digit "."%char = false.
Proof. reflexivity. Qed.

Lemma take_digits_app_stop (field rest : list ascii) :
  (rest = [] \/ exists c r, rest = c :: r /\ is_digit c = false) ->
  take_digits (field ++ rest) = take_digits field.
Proof.
  intros Hrest. induction field as [|c field IH]; simpl.
  - destruct Hrest as [-> | (c & r & -> & Hc)]; simpl; [done | by rewrite Hc].
  - destruct (is_digit c); [by rewrite IH | done].
Qed.

Lemma take_digits_all (ds : list ascii) :
  Forall (fun c => is_digit c = true) ds -> take_digits ds = ds.
Proof. induction 1 as [|c ds Hc _ IH]; simpl; [done | by rewrite Hc, IH]. Qed.

Lemma take_digits_prefix (s : list ascii) : take_digits s `prefix_of` s.
Proof.
  induction s as [|c s IH]; simpl; [done|].
  destruct (is_digit c); [by apply prefix_cons | apply prefix_nil].
Qed.

Lemma digit_cases (d : N) :
  d < 10 -> d = 0 \/ d = 1 \/ d = 2 \/ d = 3 \/ d = 4 \/ d = 5 \/ d = 6 \/
            d = 7 \/ d = 8 \/ d = 9.
Proof. lia. Qed.

Lemma is_digit_digit_char (d : N) : d < 10 -> is_digit (digit_char d) = true.
Proof. intros Hd. apply digit_cases in Hd. by repeat destruct Hd as [-> | Hd]; [..|subst]. Qed.

Lemma digit_value_digit_char (d : N) : d < 10 -> digit_value (digit_char d) = d.
Proof. intros Hd. apply digit_cases in Hd. by repeat destruct Hd as [-> | Hd]; [..|subst]. Qed.

Lemma decimal_value_snoc (ds : list ascii) (c : ascii) :
  decimal_value (ds ++ [c]) = 10 * decimal_value ds + digit_value c.
Proof. unfold decimal_value. by rewrite fold_left_app. Qed.

Lemma decimal_digits_acc (fuel : nat) (n : N) (acc : list ascii) :
  decimal_digits fuel n acc = decimal_digits fuel n [] ++ acc.
Proof.
  revert n acc. induction fuel as [|fuel IH]; intros n acc; simpl; [done|].
  destruct (n / 10 =? 0); [done|].
  rewrite IH, (IH _ [_]). by rewrite <- app_assoc.
Qed.

Lemma decimal_digits_step (fuel : nat) (n : N) :
  decimal_digits (S fuel) n [] =
  (if n / 10 =? 0 then [] else decimal_digits fuel (n / 10) []) ++
  [digit_char (n mod 10)].
Proof. simpl. destruct (n / 10 =? 0); [done | apply decimal_digits_acc]. Qed.

(** Parsing the printed digits of a number gives the number back. *)
Lemma decimal_value_decimal_digits (fuel : nat) (n : N) :
  n < 2 ^ N.of_nat fuel ->
  decimal_value (decimal_digits fuel n []) = n.
Proof.
  revert n. induction fuel as [|fuel IH]; intros n Hn.
  - simpl in *. assert (n = 0) as -> by lia. done.
  - rewrite decimal_digits_step, decimal_value_snoc.
    rewrite digit_value_digit_char by (apply N.mod_lt; lia).
    pose proof (N.div_mod n 10 ltac:(lia)) as Hdm.
    destruct (n / 10 =? 0) eqn:Hq.
    + apply N.eqb_eq in Hq. unfold decimal_value; simpl. lia.
    + rewrite IH; [lia|].
      rewrite Nat2N.inj_succ, N.pow_succ_r' in Hn.
      apply N.Div0.div_lt_upper_bound. lia.
Qed.

Lemma decimal_digits_all_digits (fuel : nat) (n : N) :
  Forall (fun c => is_digit c = true) (decimal_digits fuel n []).
Proof.
  revert n. induction fuel as [|fuel IH]; intros n; [constructor|].
  rewrite decimal_digits_step. apply Forall_app. split.
  - destruct (n / 10 =? 0); [constructor | apply IH].
  - repeat constructor. apply is_digit_digit_char, N.mod_lt. lia.
Qed.

Lemma decimal_digits_length (fuel k : nat) (n : N) :
  n < 10 ^ N.of_nat k -> (0 < k)%nat ->
  (length (decimal_digits fuel n []) <= k)%nat.
Proof.
  revert n k. induction fuel as [|fuel IH]; intros n k Hn Hk; simpl; [lia|].
  destruct (n / 10 =? 0) eqn:Hq; simpl; [lia|].
  rewrite decimal_digits_acc, length_app; simpl.
  apply N.eqb_neq in Hq.
  destruct k as [|[|k]]; [lia| |].
  - exfalso. apply Hq. apply N.div_small. simpl in Hn. lia.
  - specialize (IH (n / 10) (S k)). 
    rewrite Nat2N.inj_succ, N.pow_succ_r' in Hn.
    assert (n / 10 < 10 ^ N.of_nat (S k)).
    { apply N.Div0.div_lt_upper_bound. lia. }
    specialize (IH ltac:(done) ltac:(lia)). lia.
Qed.

Lemma format_size_t_chars (n : N) :
  chars (format_size_t n) = decimal_digits (S (N.to_nat (N.log2 n))) n [].
Proof. apply chars_of_chars. Qed.

Lemma decimal_value_format_size_t (n : N) :
  decimal_value (chars (format_size_t n)) = n.
Proof.
  rewrite format_size_t_chars. apply decimal_value_decimal_digits.
  rewrite Nat2N.inj_succ, N2Nat.id.
  destruct (decide (n = 0)) as [-> | Hn]; [done|].
  apply N.log2_spec. lia.
Qed.

Lemma decimal_value_zeros (k : nat) (ds : list ascii) :
  decimal_value (replicate k "0"%char ++ ds) = decimal_value ds.
Proof.
  unfold decimal_value. rewrite fold_left_app.
  replace (fold_left _ (replicate k "0"%char) 0) with 0; [done|].
  induction k as [|k IH]; simpl; [done|]. exact IH.
Qed.

Lemma digits_no_newline (ds : list ascii) :
  Forall (fun c => is_digit c = true) ds -> "010"%char ∉ ds.
Proof.
  intros Hds Hin. rewrite Forall_forall in Hds.
  by specialize (Hds _ Hin).
Qed.

Lemma digits_no_tab (ds : list ascii) :
  Forall (fun c => is_digit c = true) ds -> "009"%char ∉ ds.
Proof.
  intros Hds Hin. rewrite Forall_forall in Hds.
  by specialize (Hds _ Hin).
Qed.

(** ** A small instance of the libraries

    Used to run the program on concrete worlds.  Images are stored raw:
    one byte for the number of rows, one for the number of columns,
    then three bytes per pixel. *)
Module Sample.

Definition sample_imdecode (bytes : string) : option Mat :=
  match chars bytes with
  | r :: c :: px =>
      let rows := nat_of_ascii r in
      let cols := nat_of_ascii c in
      if bool_decide (length px = (rows * cols * 3)%nat)
      then Some (mk_Mat rows cols 3 CV_8U ((fun a => Z.of_N (N_of_ascii a)) <$> px))
      else None
  | _ => None
  end.

Definition sample_blur (src : Mat) (ksize : nat * nat) (sx sy : double)
    (b : BorderTypes) : Mat := src.

Fixpoint gray_samples (n : nat) (d : list Z) : list Z :=
  match n with
  | O => []
  | S n' =>
      match d with
      | b :: g :: r :: d' => ((b + g + r) / 3)%Z :: gray_samples n' d'
      | _ => 0%Z :: gray_samples n' []
      end
  end.

Definition sample_cvtColor (src : Mat) (code : ColorConversionCodes) : Mat :=
  mk_Mat (rows src) (cols src) 1 (elem_depth src)
    (gray_samples (rows src * cols src) (data src)).

(** Second difference along the row-major order, the ends replicated. *)
Definition sample_response (src : Mat) (ksize : Z) (scale delta : double)
    (b : BorderTypes) : list Z :=
  imap (fun i x =>
          (8 * (default x (data src !! pred i) + default x (data src !! S i)
                - 2 * x))%Z)
       (data src).

Lemma gray_samples_length n d : length (gray_samples n d) = n.
Proof.
  revert d. induction n as [|n IH]; intros d; simpl; [done|].
  destruct d as [|? [|? [|? ?]]]; simpl; by rewrite IH.
Qed.

#[export, refine] Instance sample_cv : OpenCV := {
  imdecode := sample_imdecode;
  GaussianBlur := sample_blur;
  cvtColor := sample_cvtColor;
  laplacian_response := sample_response
}.
Proof.
  - intros bytes m. unfold sample_imdecode.
    destruct (chars bytes) as [|r [|c px]]; [done..|].
    cbv zeta. case_bool_decide as Hlen; [|done].
    intros [= <-]. unfold Mat_wf; simpl. by rewrite length_fmap.
  - done.
  - intros src _ _. unfold Mat_wf; simpl.
    rewrite gray_samples_length. split; [lia | done].
  - intros src ksize scale delta b _. unfold sample_response.
    apply length_imap.
Defined.

Definition format_Z (z : Z) : string :=
  (if (z <? 0)%Z then "-" else EmptyString) +:+ format_size_t (Z.abs_N z).

(** Integers are printed as such, other values as a fraction. *)
Definition sample_format_double (x : double) : string :=
  match Qden x with
  | 1%positive => format_Z (Qnum x)
  | d => format_Z (Qnum x) +:+ "/" +:+ format_size_t (Npos d)
  end.

Lemma format_Z_no_newline (z : Z) : "010"%char ∉ chars (format_Z z).
Proof.
  unfold format_Z. rewrite chars_app. apply not_elem_of_app. split.
  - destruct (z <? 0)%Z; simpl; [|apply not_elem_of_nil].
    by intros [=]%list_elem_of_singleton.
  - apply digits_no_newline. rewrite format_size_t_chars.
    apply decimal_digits_all_digits.
Qed.

#[export, refine] Instance sample_fmt : FmtLib := {
  format_double := sample_format_double
}.
Proof.
  intros x. unfold sample_format_double.
  assert ("010"%char ∉ chars (format_Z (Qnum x) +:+ "/" +:+
                               format_size_t (Npos (Qden x)))) as Hfrac.
  { rewrite !chars_app. rewrite !not_elem_of_app.
    split; [apply format_Z_no_newline|]. split.
    - by intros [=]%list_elem_of_singleton.
    - apply digits_no_newline. rewrite format_size_t_chars.
      apply decimal_digits_all_digits. }
  destruct (Qden x); try exact Hfrac. apply format_Z_no_newline.
Defined.

(** Two frames, listed out of order: a flat image and one with an edge. *)
Definition raw_image (samples : list nat) : string :=
  of_chars (ascii_of_nat <$> samples).

Definition sample_world : world :=
  mk_world
    (<["frames" := Directory ["f00002.png"; "f00001.png"]]>
     (<["frames/f00002.png" :=
          RegularFile (raw_image [1; 3; 9;9;9; 9;9;9; 9;9;9])]>
     (<["frames/f00001.png" :=
          RegularFile (raw_image [1; 3; 0;0;0; 90;90;90; 0;0;0])]> ∅)))%nat
    ∅ [].

End Sample.

#[global] Existing Instance Sample.sample_cv | 100.
#[global] Existing Instance Sample.sample_fmt | 100.

(** ** The frame-number parser *)

Lemma size_add_small (a b : N) : a + b <= SIZE_MAX -> size_add a b = a + b.
Proof.
  intros Hab. unfold size_add. apply N.mod_small.
  unfold SIZE_MAX in Hab. assert (0 < 2 ^ SIZE_BITS) by (by vm_compute). lia.
Qed.

Lemma size_sub_small (a b : N) : b <= a -> a <= SIZE_MAX -> size_sub a b = a - b.
Proof.
  intros Hba Ha. unfold size_sub.
  assert (2 ^ Z.of_N SIZE_BITS = Z.of_N SIZE_MAX + 1)%Z as -> by (by vm_compute).
  rewrite Z.mod_small by lia. lia.
Qed.

(** On a path that passes the length check the text handed to
    [from_chars] is the digit field followed by the extension. *)
Lemma digit_field_split (p : string) (W : N) :
  str_length (extension p) + W < str_length p ->
  drop (length (chars p) - length (extension_chars (chars p)) - N.to_nat W)
       (chars p)
  = digit_field p W ++ extension_chars (chars p)
  /\ length (digit_field p W) = N.to_nat W.
Proof.
  rewrite !str_length_chars, extension_chars_eq. intros Hlen.
  unfold digit_field. cbv zeta.
  destruct (extension_chars_spec (chars p)) as [[pre Hpre] _].
  set (ext := extension_chars (chars p)) in *.
  rewrite Hpre in *. rewrite length_app in *.
  replace (length pre + length ext - length ext - N.to_nat W)%nat
    with (length pre - N.to_nat W)%nat by lia.
  rewrite drop_app_le by lia.
  assert (length (drop (length pre - N.to_nat W) pre) = N.to_nat W) as Hl.
  { rewrite length_drop. lia. }
  rewrite take_app_le by lia. rewrite take_ge by lia. done.
Qed.

Lemma extract_frame_number_field (p : string) (W : N) :
  str_length p <= SIZE_MAX ->
  str_length (extension p) + W < str_length p ->
  extract_frame_number p W =
    match take_digits (digit_field p W) with
    | [] => Throw (FrameNumberParseError p)
    | ds =>
        if decimal_value ds <=? SIZE_MAX then Ok (decimal_value ds)
        else Throw (FrameNumberParseError p)
    end.
Proof.
  intros Hmax Hlen. unfold extract_frame_number. cbv zeta.
  rewrite size_add_small by lia.
  destruct (N.leb_spec (str_length p) (str_length (extension p) + W)); [lia|].
  rewrite (size_sub_small (str_length p)) by lia.
  rewrite size_sub_small by lia.
  destruct (digit_field_split p W Hlen) as [Hsplit _].
  replace (N.to_nat (str_length p - str_length (extension p) - W))
    with (length (chars p) - length (extension_chars (chars p)) - N.to_nat W)%nat.
  2:{ rewrite !str_length_chars, extension_chars_eq. lia. }
  rewrite Hsplit. unfold from_chars.
  rewrite take_digits_app_stop.
  2:{ destruct (extension_chars_spec (chars p)) as [_ [-> | [e' ->]]];
        [by left | right; eauto using is_digit_period]. }
  destruct (take_digits (digit_field p W)) as [|d ds]; [done|].
  by destruct (decimal_value (d :: ds) <=? SIZE_MAX).
Qed.



(** The guard's sum is the plain sum whenever that fits [std::size_t],
    as it does for the default width. *)
Lemma extract_frame_number_short_plain_sum (p : string) (W : N) :
  str_length (extension p) + W <= SIZE_MAX ->
  str_length p <= str_length (extension p) + W ->
  extract_frame_number p W = Throw (InvalidFileNameError p).
Proof.
  intros Hfit Hlen. unfold extract_frame_number. cbv zeta.
  rewrite size_add_small by done.
  by destruct (N.leb_spec (str_length p) (str_length (extension p) + W)); [|lia].
Qed.

(** A width close to the top of [std::size_t] makes the guard's sum wrap
    around; the guard then lets a short name through to the parser. *)
Lemma extract_frame_number_wrapped_guard :
  extract_frame_number "ab.png" SIZE_MAX = Throw (FrameNumberParseError "ab.png").
Proof. by vm_compute. Qed.

(** C2, as stated, fails: the field [12abc] of [f12abc.png] holds
    characters that are not digits, and the parser returns 12. *)
Lemma extract_frame_number_accepts_mixed_field :
  str_length (extension "f12abc.png") + 5 < str_length "f12abc.png" /\
  of_chars (digit_field "f12abc.png" 5) = "12abc" /\
  Exists (fun c => is_digit c = false) (digit_field "f12abc.png" 5) /\
  extract_frame_number "f12abc.png" 5 = Ok 12.
Proof.
  split; [by vm_compute|]. split; [by vm_compute|]. split; [|by vm_compute].
  vm_compute. do 2 apply Exists_cons_tl. by apply Exists_cons_hd.
Qed.

(** C2, amended.  On a path that passes the length check the parser
    looks at the leading run of digits of the [W]-character field in
    front of the extension: it succeeds exactly when that run is not
    empty and its value fits [std::size_t], returning the value of the
    run; otherwise it fails with the frame-number parse error.  What
    follows the run inside the field is not inspected. *)
Theorem extract_frame_number_leading_digits (p : string) (W : N) :
  str_length p <= SIZE_MAX ->
  str_length (extension p) + W < str_length p ->
  (forall n, extract_frame_number p W = Ok n <->
     take_digits (digit_field p W) <> [] /\
     decimal_value (take_digits (digit_field p W)) <= SIZE_MAX /\
     n = decimal_value (take_digits (digit_field p W))) /\
  (take_digits (digit_field p W) = [] \/
   SIZE_MAX < decimal_value (take_digits (digit_field p W)) ->
   extract_frame_number p W = Throw (FrameNumberParseError p)).
Proof.
  intros Hmax Hlen. rewrite (extract_frame_number_field p W Hmax Hlen).
  destruct (take_digits (digit_field p W)) as [|d ds] eqn:Hds; cbv zeta.
  - split; [|done]. intros n. split; [done | by intros [? _]].
  - destruct (N.leb_spec (decimal_value (d :: ds)) SIZE_MAX) as [Hv | Hv].
    + split.
      * intros n. split; [intros [= <-]; done | by intros (_ & _ & ->)].
      * intros [? | ?]; [done | lia].
    + split; [|done]. intros n. split; [done | intros (_ & ? & _); lia].
Qed.

Lemma extract_frame_number_leading_digits_f12abc :
  (str_length "f12abc.png" <= SIZE_MAX /\
   str_length (extension "f12abc.png") + 5 < str_length "f12abc.png") /\
  (extract_frame_number "f12abc.png" 5 = Ok 12 <->
     take_digits (digit_field "f12abc.png" 5) <> [] /\
     decimal_value (take_digits (digit_field "f12abc.png" 5)) <= SIZE_MAX /\
     12 = decimal_value (take_digits (digit_field "f12abc.png" 5))).
Proof.
  assert (str_length "f12abc.png" <= SIZE_MAX) as H1 by (by vm_compute).
  assert (str_length (extension "f12abc.png") + 5 < str_length "f12abc.png")
    as H2 by (by vm_compute).
  split; [done|].
  exact (proj1 (extract_frame_number_leading_digits "f12abc.png" 5 H1 H2) 12).
Defined.

(** What remains of C2 as stated: a field that does not begin with a
    digit is refused, and a field of digits only is read in full. *)
Lemma extract_frame_number_non_digit_start (p : string) (W : N) c field :
  str_length p <= SIZE_MAX ->
  str_length (extension p) + W < str_length p ->
  digit_field p W = c :: field -> is_digit c = false ->
  extract_frame_number p W = Throw (FrameNumberParseError p).
Proof.
  intros Hmax Hlen Hf Hc. rewrite (extract_frame_number_field p W Hmax Hlen).
  rewrite Hf. simpl. by rewrite Hc.
Qed.

(** The field [AB123] of [frameAB123.png] does not begin with a digit. *)
Example extract_frame_number_frameAB123 :
  of_chars (digit_field "frameAB123.png" 5) = "AB123" /\
  extract_frame_number "frameAB123.png" 5
    = Throw (FrameNumberParseError "frameAB123.png").
Proof. split; by vm_compute. Qed.

Lemma zero_padded_chars (W n : N) :
  0 < W -> n < 10 ^ W ->
  chars (zero_padded W n) =
    replicate (N.to_nat W - length (chars (format_size_t n))) "0"%char
      ++ chars (format_size_t n)
  /\ length (chars (zero_padded W n)) = N.to_nat W.
Proof.
  intros HW Hn. unfold zero_padded. cbv zeta. rewrite chars_of_chars.
  split; [done|]. rewrite length_app, length_replicate.
  assert (length (chars (format_size_t n)) <= N.to_nat W)%nat; [|lia].
  rewrite format_size_t_chars. apply decimal_digits_length; [|lia].
  by rewrite N2Nat.id.
Qed.

(** C3.  A path made of a non-empty prefix, the decimal representation
    of [n] padded with zeros to the width [W], and the extension of the
    path, yields the frame number [n]. *)
Theorem extract_frame_number_zero_padded (pre ext : string) (W n : N) :
  extension (pre +:+ zero_padded W n +:+ ext) = ext ->
  pre <> EmptyString ->
  0 < W -> n < 10 ^ W -> n <= SIZE_MAX ->
  str_length (pre +:+ zero_padded W n +:+ ext) <= SIZE_MAX ->
  extract_frame_number (pre +:+ zero_padded W n +:+ ext) W = Ok n.
Proof.
  intros Hext Hpre HW Hn Hfit Hmax.
  set (p := pre +:+ zero_padded W n +:+ ext) in *.
  destruct (zero_padded_chars W n HW Hn) as [Hzp Hzl].
  assert (chars p = chars pre ++ chars (zero_padded W n) ++ chars ext) as Hp.
  { unfold p. by rewrite !chars_app. }
  assert (0 < length (chars pre))%nat as Hprel.
  { destruct pre; [done | simpl; lia]. }
  assert (str_length (extension p) + W < str_length p) as Hlen.
  { rewrite Hext, !str_length_chars, Hp, !length_app. lia. }
  assert (digit_field p W = chars (zero_padded W n)) as Hfield.
  { destruct (digit_field_split p W Hlen) as [Hsplit Hl].
    rewrite <- extension_chars_eq, Hext in Hsplit.
    rewrite Hp in Hsplit at 1 2. rewrite !length_app in Hsplit.
    replace (length (chars pre) + (length (chars (zero_padded W n))
               + length (chars ext)) - length (chars ext) - N.to_nat W)%nat
      with (length (chars pre)) in Hsplit by lia.
    rewrite drop_app_length in Hsplit.
    by apply app_inv_tail in Hsplit. }
  rewrite (extract_frame_number_field p W Hmax Hlen), Hfield.
  rewrite take_digits_all.
  2:{ rewrite Hzp. apply Forall_app. split.
      - by apply Forall_replicate.
      - rewrite format_size_t_chars. apply decimal_digits_all_digits. }
  assert (decimal_value (chars (zero_padded W n)) = n) as Hv.
  { rewrite Hzp, decimal_value_zeros. apply decimal_value_format_size_t. }
  clear Hzp Hfield. revert Hv Hzl.
  destruct (chars (zero_padded W n)) as [|d ds]; intros Hv Hzl;
    [simpl in Hzl; lia|].
  cbv zeta. rewrite Hv. by destruct (N.leb_spec n SIZE_MAX); [|lia].
Qed.

Lemma extract_frame_number_zero_padded_frame00042 :
  zero_padded 5 42 = "00042" /\
  extract_frame_number "frame00042.png" 5 = Ok 42.
Proof.
  split; [by vm_compute|].
  apply (extract_frame_number_zero_padded "frame" ".png" 5 42);
    by vm_compute.
Defined.

(** ** Sorting *)

Section std_sort_spec.
Context {A : Type} (key : A -> N).

Definition key_less (x y : A) : bool := key x <? key y.
Definition key_le (x y : A) : Prop := key x <= key y.

Lemma sort_insert_Permutation (x : A) (l : list A) :
  sort_insert key_less x l ≡ₚ x :: l.
Proof.
  induction l as [|y l IH]; simpl; [done|].
  destruct (key_less y x); [|done].
  rewrite IH. apply Permutation_swap.
Qed.

Lemma std_sort_Permutation (l : list A) : std_sort key_less l ≡ₚ l.
Proof.
  induction l as [|x l IH]; simpl; [done|].
  by rewrite sort_insert_Permutation, IH.
Qed.

Lemma sort_insert_HdRel (x y : A) (l : list A) :
  key_le y x -> HdRel key_le y l -> HdRel key_le y (sort_insert key_less x l).
Proof.
  intros Hyx Hl. destruct l as [|z l]; simpl; [by constructor|].
  destruct (key_less z x); constructor; [|done].
  by inversion Hl.
Qed.

Lemma sort_insert_Sorted (x : A) (l : list A) :
  Sorted key_le l -> Sorted key_le (sort_insert key_less x l).
Proof.
  induction 1 as [|y l Hl IH Hhd]; simpl; [by repeat constructor|].
  unfold key_less at 1. destruct (N.ltb_spec (key y) (key x)) as [Hlt | Hge].
  - constructor; [done|]. apply sort_insert_HdRel; [|done].
    unfold key_le. lia.
  - constructor; [by constructor|]. by constructor.
Qed.

Lemma std_sort_Sorted (l : list A) : Sorted key_le (std_sort key_less l).
Proof.
  induction l as [|x l IH]; simpl; [constructor|].
  by apply sort_insert_Sorted.
Qed.

Lemma std_sort_keys_Sorted (l : list A) :
  Sorted N.le (key <$> std_sort key_less l).
Proof.
  apply (Sorted_fmap key key_le N.le); [done|]. apply std_sort_Sorted.
Qed.
End std_sort_spec.

(** ** Extreme values of a grid *)

Lemma fold_left_max_spec (l : list Z) (x : Z) :
  (fold_left Z.max l x = x \/ fold_left Z.max l x ∈ l) /\
  (x <= fold_left Z.max l x)%Z /\
  Forall (fun y => (y <= fold_left Z.max l x)%Z) l.
Proof.
  revert x. induction l as [|y l IH]; intros x; simpl.
  - split; [by left|]. split; [lia | constructor].
  - destruct (IH (Z.max x y)) as (Hin & Hle & Hall).
    split; [|split; [lia|]].
    + destruct Hin as [Heq | Hin]; [|right; by constructor].
      rewrite Heq. destruct (Z.max_spec x y) as [[_ ->] | [_ ->]];
        [right; constructor | by left].
    + constructor; [lia | done].
Qed.

(** On a grid with at least one element [max_elem] is an element of the
    grid and an upper bound of all of them. *)
Lemma max_elem_spec (l : list Z) :
  l <> [] -> max_elem l ∈ l /\ Forall (fun y => (y <= max_elem l)%Z) l.
Proof.
  destruct l as [|x l]; [done|]. intros _. simpl.
  destruct (fold_left_max_spec l x) as (Hin & Hle & Hall). split.
  - destruct Hin as [-> | Hin]; [constructor | by constructor].
  - by constructor.
Qed.

Lemma max_elem_bounds (lo hi : Z) (l : list Z) :
  (lo <= 0 <= hi)%Z -> Forall (fun y => (lo <= y <= hi)%Z) l ->
  (lo <= max_elem l <= hi)%Z.
Proof.
  intros H0 Hall. destruct (decide (l = [])) as [-> | Hne]; [done|].
  destruct (max_elem_spec l Hne) as [Hin _].
  rewrite Forall_forall in Hall. by apply Hall.
Qed.

Lemma saturate_cast_range (d : depth) (z : Z) :
  (depth_min d <= saturate_cast d z <= depth_max d)%Z.
Proof. unfold saturate_cast. destruct d; simpl; lia. Qed.

(** ** The sharpness measure *)

Section sharpness.
Context `{OpenCV}.

Lemma calculate_sharpness_run (p : string) (w : world) :
  calculate_sharpness p w =
    (if (cols (image_at w p) =? 0)%nat || (rows (image_at w p) =? 0)%nat
     then Throw (ImageDecodeError p)
     else Ok (inject_Z (max_elem (data (response_grid (image_at w p))))),
     record_event (ev_imread p) w).
Proof.
  unfold calculate_sharpness, read_image, bind, imread. fold (image_at w p).
  by destruct ((cols (image_at w p) =? 0)%nat || (rows (image_at w p) =? 0)%nat).
Qed.

Lemma image_at_wf (p : string) (w : world) :
  (0 < rows (image_at w p))%nat ->
  Mat_wf (image_at w p) /\ channels (image_at w p) = 3%nat.
Proof.
  unfold image_at.
  destruct (fs w !! p) as [[entries | bytes]|]; simpl; [lia| |lia].
  destruct (imdecode bytes) as [m|] eqn:Hm; simpl; [|lia].
  intros _. by apply (imdecode_wf bytes).
Qed.

(** The response grid has one element per pixel of the image. *)
Lemma response_grid_length (image : Mat) :
  Mat_wf image -> channels image = 3%nat ->
  length (data (response_grid image)) = (rows image * cols image)%nat.
Proof.
  intros Hwf Hch. unfold response_grid, Laplacian. simpl.
  rewrite length_fmap.
  destruct (GaussianBlur_wf image (3, 3)%nat 0%Q 0%Q BORDER_DEFAULT Hwf)
    as (Hbwf & Hbr & Hbc & Hbch).
  destruct (cvtColor_wf _ Hbwf ltac:(congruence)) as (Hgwf & Hgr & Hgc & Hgch).
  rewrite laplacian_response_length by done.
  rewrite Hgwf, Hgr, Hgc, Hgch, Hbr, Hbc. lia.
Qed.

Lemma response_grid_range (image : Mat) :
  Forall (fun z => (-32768 <= z <= 32767)%Z) (data (response_grid image)).
Proof.
  unfold response_grid, Laplacian. simpl. apply Forall_fmap, Forall_true.
  intros z. apply (saturate_cast_range CV_16S).
Qed.

End sharpness.

(** C7.  For a successfully decoded image (one with rows and columns)
    the score returned is an element of the signed Laplacian response
    grid and no element of the grid is greater: it is the maximum of
    the signed values, not of their magnitudes. *)
Theorem calculate_sharpness_is_maximum `{OpenCV} (p : string) (w : world) :
  (0 < rows (image_at w p))%nat -> (0 < cols (image_at w p))%nat ->
  exists z : Z,
    calculate_sharpness p w = (Ok (inject_Z z), record_event (ev_imread p) w) /\
    z ∈ data (response_grid (image_at w p)) /\
    Forall (fun y => (y <= z)%Z) (data (response_grid (image_at w p))).
Proof.
  intros Hr Hc. exists (max_elem (data (response_grid (image_at w p)))).
  split.
  - rewrite calculate_sharpness_run.
    destruct (Nat.eqb_spec (cols (image_at w p)) 0); [lia|].
    destruct (Nat.eqb_spec (rows (image_at w p)) 0); [lia|]. done.
  - apply max_elem_spec.
    destruct (image_at_wf p w Hr) as [Hwf Hch].
    pose proof (response_grid_length _ Hwf Hch) as Hlen.
    intros Hnil. rewrite Hnil in Hlen. simpl in Hlen. nia.
Qed.

(** On the sample image with an edge the grid is 720, -1440, 720: the
    score is 720, although the largest magnitude is 1440. *)
Lemma calculate_sharpness_is_maximum_sample :
  (0 < rows (image_at Sample.sample_world "frames/f00001.png"))%nat /\
  (0 < cols (image_at Sample.sample_world "frames/f00001.png"))%nat /\
  data (response_grid (image_at Sample.sample_world "frames/f00001.png"))
    = [720; -1440; 720]%Z /\
  (calculate_sharpness "frames/f00001.png" Sample.sample_world).1
    = Ok (inject_Z 720) /\
  exists z : Z,
    calculate_sharpness "frames/f00001.png" Sample.sample_world =
      (Ok (inject_Z z),
       record_event (ev_imread "frames/f00001.png") Sample.sample_world) /\
    z ∈ data (response_grid (image_at Sample.sample_world "frames/f00001.png")) /\
    Forall (fun y => (y <= z)%Z)
      (data (response_grid (image_at Sample.sample_world "frames/f00001.png"))).
Proof.
  split; [vm_compute; lia|]. split; [vm_compute; lia|].
  split; [by vm_compute|]. split; [by vm_compute|].
  apply (calculate_sharpness_is_maximum "frames/f00001.png" Sample.sample_world);
    vm_compute; lia.
Defined.

(** C10.  Every score the sharpness measure returns is the double of an
    integer between -32768 and 32767. *)
Theorem calculate_sharpness_range `{OpenCV} (p : string) (w w' : world)
    (v : double) :
  calculate_sharpness p w = (Ok v, w') ->
  exists z : Z,
    v = inject_Z z /\ (-32768 <= z <= 32767)%Z /\
    Qle (inject_Z (-32768)) v /\ Qle v (inject_Z 32767).
Proof.
  rewrite calculate_sharpness_run. intros Hrun.
  destruct ((cols (image_at w p) =? 0)%nat || (rows (image_at w p) =? 0)%nat);
    [done|].
  injection Hrun as <- _.
  exists (max_elem (data (response_grid (image_at w p)))).
  assert (-32768 <= max_elem (data (response_grid (image_at w p))) <= 32767)%Z
    as Hrange.
  { apply max_elem_bounds; [lia | apply response_grid_range]. }
  split; [done|]. split; [done|].
  rewrite <- !Zle_Qle. exact Hrange.
Qed.

Lemma calculate_sharpness_range_sample :
  calculate_sharpness "frames/f00001.png" Sample.sample_world
    = (Ok (inject_Z 720),
       record_event (ev_imread "frames/f00001.png") Sample.sample_world) /\
  exists z : Z,
    inject_Z 720 = inject_Z z /\ (-32768 <= z <= 32767)%Z /\
    Qle (inject_Z (-32768)) (inject_Z 720) /\
    Qle (inject_Z 720) (inject_Z 32767).
Proof.
  assert (calculate_sharpness "frames/f00001.png" Sample.sample_world
          = (Ok (inject_Z 720),
             record_event (ev_imread "frames/f00001.png") Sample.sample_world))
    as Hrun by (by vm_compute).
  split; [exact Hrun|].
  exact (calculate_sharpness_range _ _ _ _ Hrun).
Defined.

Lemma image_at_same_bytes `{OpenCV} (p1 p2 : string) (w1 w2 : world) :
  fs w1 !! p1 = fs w2 !! p2 -> image_at w1 p1 = image_at w2 p2.
Proof. unfold image_at. by intros ->. Qed.




(** ** Text of the result file *)

Lemma append_assoc (a b c : string) : (a +:+ b) +:+ c = a +:+ b +:+ c.
Proof. apply chars_inj. by rewrite !chars_app, app_assoc. Qed.

Lemma append_empty_r (a : string) : a +:+ EmptyString = a.
Proof. apply chars_inj. by rewrite chars_app, app_nil_r. Qed.

Lemma lines_app_line (l rest : list ascii) :
  "010"%char ∉ l -> lines (l ++ "010"%char :: rest) = l :: lines rest.
Proof.
  induction l as [|c l IH]; intros Hl; simpl; [done|].
  apply not_elem_of_cons in Hl as [Hc Hl].
  destruct (Ascii.eqb_spec c "010"%char) as [-> | _]; [done|].
  by rewrite IH.
Qed.

Lemma until_app (sep : ascii) (a b : list ascii) :
  sep ∉ a -> until sep (a ++ sep :: b) = a.
Proof.
  induction a as [|c a IH]; intros Ha; simpl.
  - by rewrite Ascii.eqb_refl.
  - apply not_elem_of_cons in Ha as [Hc Ha].
    destruct (Ascii.eqb_spec c sep) as [-> | _]; [done|].
    by rewrite IH.
Qed.

Section result_text.
Context `{FmtLib}.

(** A record without its final newline. *)
Definition record_chars (frame : frame_info) : list ascii :=
  chars (format_size_t (number frame)) ++
  "009"%char :: chars (format_double (sharpness frame)).

Lemma format_frame_chars (frame : frame_info) :
  chars (format_frame frame) = record_chars frame ++ ["010"%char].
Proof.
  unfold format_frame, record_chars. rewrite !chars_app. simpl.
  by rewrite <- app_assoc.
Qed.

Lemma format_size_t_digits (n : N) :
  Forall (fun c => is_digit c = true) (chars (format_size_t n)).
Proof. rewrite format_size_t_chars. apply decimal_digits_all_digits. Qed.

Lemma record_chars_no_newline (frame : frame_info) :
  "010"%char ∉ record_chars frame.
Proof.
  unfold record_chars. rewrite not_elem_of_app, not_elem_of_cons.
  split; [apply digits_no_newline, format_size_t_digits|].
  split; [done | apply format_double_no_newline].
Qed.

Lemma lines_records (frames : list frame_info) :
  lines (chars (concat_strings (format_frame <$> frames)))
  = record_chars <$> frames.
Proof.
  induction frames as [|frame frames IH]; [done|].
  rewrite !fmap_cons. change (concat_strings (?s :: ?l)) with (s +:+ concat_strings l).
  rewrite chars_app, format_frame_chars, <- app_assoc.
  change ([?c] ++ ?r) with (c :: r).
  rewrite lines_app_line by apply record_chars_no_newline.
  by rewrite IH.
Qed.

Lemma first_fields_records (frames : list frame_info) :
  first_fields (concat_strings (format_frame <$> frames))
  = (fun frame => format_size_t (number frame)) <$> frames.
Proof.
  unfold first_fields. rewrite lines_records, <- list_fmap_compose.
  apply list_fmap_ext. intros _ frame _. simpl. unfold record_chars.
  rewrite until_app by apply digits_no_tab, format_size_t_digits.
  apply String.string_of_list_ascii_of_string.
Qed.

End result_text.

(** ** The pipeline *)

Section pipeline.
Context `{OpenCV} `{FmtLib}.

Lemma analyse_frame_run (p : string) (w : world) :
  analyse_frame p w =
    match extract_frame_number p default_frame_number_digits with
    | Throw e => (Throw e, w)
    | Ok n =>
        (if (cols (image_at w p) =? 0)%nat || (rows (image_at w p) =? 0)%nat
         then Throw (ImageDecodeError p)
         else Ok (mk_frame_info n
                    (inject_Z (max_elem (data (response_grid (image_at w p)))))),
         record_event (ev_imread p) w)
    end.
Proof.
  unfold analyse_frame, bind, lift.
  destruct (extract_frame_number p default_frame_number_digits) as [n|e];
    [|done].
  rewrite calculate_sharpness_run.
  by destruct ((cols (image_at w p) =? 0)%nat || (rows (image_at w p) =? 0)%nat).
Qed.

(** The frame number cannot fail with the error of the image decoder. *)
Lemma extract_frame_number_errors (p : string) (W : N) (e : exception) :
  extract_frame_number p W = Throw e ->
  e = InvalidFileNameError p \/ e = FrameNumberParseError p.
Proof.
  unfold extract_frame_number. cbv zeta.
  destruct (str_length p <=? size_add (str_length (extension p)) W);
    [intros [= <-]; by left|].
  destruct (from_chars _ 0) as [res frame_number].
  case_bool_decide; [intros [= <-]; by right | done].
Qed.

(** What one analysed frame does to the world: it reads one image,
    whose name parsed, or nothing at all. *)
Lemma analyse_frame_world (p : string) (w w' : world) (r : result frame_info) :
  analyse_frame p w = (r, w') ->
  (w' = w /\ exists e, r = Throw e /\
     extract_frame_number p default_frame_number_digits = Throw e) \/
  (w' = record_event (ev_imread p) w /\ exists n,
     extract_frame_number p default_frame_number_digits = Ok n /\
     forall frame, r = Ok frame -> number frame = n).
Proof.
  rewrite analyse_frame_run.
  destruct (extract_frame_number p default_frame_number_digits) as [n|e].
  - intros [= <- <-]. right. split; [done|]. exists n. split; [done|].
    intros frame.
    by destruct ((cols (image_at w p) =? 0)%nat || (rows (image_at w p) =? 0)%nat);
      [|intros [= <-]].
  - intros [= <- <-]. left. eauto.
Qed.

(** The events a run of the loop adds: reads of entries whose names
    parsed.  The file system is left as it was. *)
Definition parsed_reads (entries : list string) (evs : list event) : Prop :=
  Forall (fun ev => exists q n, ev = ev_imread q /\ q ∈ entries /\
            extract_frame_number q default_frame_number_digits = Ok n) evs.

Lemma for_each_entry_world (entries : list string) (acc : list frame_info)
    (w w' : world) (r : result (list frame_info)) :
  for_each_entry entries acc w = (r, w') ->
  fs w' = fs w /\ unwritable w' = unwritable w /\
  exists evs, trace w' = trace w ++ evs /\ parsed_reads entries evs.
Proof.
  revert acc w. induction entries as [|entry rest IH]; intros acc w; simpl.
  - intros [= <- <-]. do 2 (split; [done|]). exists [].
    split; [by rewrite app_nil_r | constructor].
  - unfold bind. destruct (analyse_frame entry w) as [[frame|e] w1] eqn:Hframe.
    + apply analyse_frame_world in Hframe
        as [[_ (e & [=] & _)] | [-> (n & Hn & _)]].
      intros Hrest. apply IH in Hrest as (Hfs & Hunw & evs & Htr & Hevs).
      split; [done|]. split; [done|].
      exists (ev_imread entry :: evs). split.
      * rewrite Htr. simpl. by rewrite <- app_assoc.
      * constructor.
        -- exists entry, n. split; [done|]. split; [constructor | done].
        -- eapply Forall_impl; [exact Hevs|].
           intros ev (q & m & -> & Hq & Hm). exists q, m.
           split; [done|]. split; [by constructor | done].
    + intros [= <- <-].
      apply analyse_frame_world in Hframe
        as [[-> _] | [-> (n & Hn & _)]].
      * do 2 (split; [done|]). exists [].
        split; [by rewrite app_nil_r | constructor].
      * do 2 (split; [done|]). exists [ev_imread entry]. split; [done|].
        repeat constructor. exists entry, n.
        split; [done|]. split; [constructor | done].
Qed.

(** A run of the loop that succeeds appends one frame per entry, in the
    order of the entries, numbered as its name says. *)
Lemma for_each_entry_ok (entries : list string) (acc frames : list frame_info)
    (w w' : world) :
  for_each_entry entries acc w = (Ok frames, w') ->
  exists new,
    frames = acc ++ new /\
    Forall2 (fun entry frame =>
               extract_frame_number entry default_frame_number_digits
               = Ok (number frame)) entries new.
Proof.
  revert acc w. induction entries as [|entry rest IH]; intros acc w; simpl.
  - intros [= <- <-]. exists []. split; [by rewrite app_nil_r | constructor].
  - unfold bind. destruct (analyse_frame entry w) as [[frame|e] w1] eqn:Hframe;
      [|done].
    apply analyse_frame_world in Hframe
      as [[_ (e & [=] & _)] | [-> (n & Hn & Hnum)]].
    intros Hrest. apply IH in Hrest as (new & -> & Hnew).
    exists (frame :: new). split; [by rewrite <- app_assoc|].
    constructor; [|done]. by rewrite (Hnum frame eq_refl).
Qed.

Lemma analyse_frames_run (directory : string) (w : world) :
  analyse_frames directory w =
    match fs w !! directory with
    | Some (Directory entries) =>
        match for_each_entry (entry_paths w directory) [] w with
        | (Ok result, w') => (Ok (std_sort frame_less result), w')
        | (Throw e, w') => (Throw e, w')
        end
    | _ => (Throw (InvalidDirectoryError directory), w)
    end.
Proof.
  unfold analyse_frames, bind, is_directory, directory_iterator, entry_paths.
  destruct (fs w !! directory) as [[entries|content]|] eqn:Hdir; simpl;
    [|done..].
  rewrite Hdir.
  by destruct (for_each_entry (path_append directory <$> entries) [] w)
    as [[frames|e] w'].
Qed.

(** The collection step never touches the file system. *)
Lemma analyse_frames_world (directory : string) (w w' : world)
    (r : result (list frame_info)) :
  analyse_frames directory w = (r, w') ->
  fs w' = fs w /\ unwritable w' = unwritable w /\
  exists evs, trace w' = trace w ++ evs /\
              parsed_reads (entry_paths w directory) evs.
Proof.
  rewrite analyse_frames_run.
  assert (fs w = fs w /\ unwritable w = unwritable w /\
          exists evs, trace w = trace w ++ evs /\
                      parsed_reads (entry_paths w directory) evs) as Hnone.
  { do 2 (split; [done|]). exists []. split; [by rewrite app_nil_r | constructor]. }
  destruct (fs w !! directory) as [[entries|content]|];
    [|by intros [= <- <-]..].
  destruct (for_each_entry (entry_paths w directory) [] w) as [[result|e] w1]
    eqn:Hloop; intros [= <- <-]; by apply for_each_entry_world in Hloop.
Qed.

(** ** The writer *)

Lemma set_file_same (p content : string) (w : world) :
  fs w !! p = Some (RegularFile content) -> set_file p content w = w.
Proof.
  intros Hp. destruct w as [f u t]. unfold set_file. simpl in *.
  by rewrite insert_id.
Qed.

Lemma set_file_twice (p c1 c2 : string) (w : world) :
  set_file p c2 (set_file p c1 w) = set_file p c2 w.
Proof. unfold set_file. simpl. by rewrite insert_insert_eq. Qed.

Lemma write_frames_run (p content : string) (frames : list frame_info)
    (w : world) :
  fs w !! p = Some (RegularFile content) ->
  write_frames p frames w =
    (Ok tt,
     set_file p (content +:+ concat_strings (format_frame <$> frames)) w).
Proof.
  revert content w. induction frames as [|frame frames IH]; intros content w Hp.
  - simpl. unfold ret. by rewrite append_empty_r, set_file_same.
  - simpl. unfold bind, ofstream_write. rewrite Hp.
    rewrite (IH (content +:+ format_frame frame)).
    + by rewrite set_file_twice, append_assoc.
    + unfold set_file. simpl. apply lookup_insert_eq.
Qed.

Lemma write_results_run (p : string) (frames : list frame_info) (w : world) :
  (forall entries, fs w !! p <> Some (Directory entries)) ->
  p ∉ unwritable w ->
  write_results p frames w =
    (Ok tt,
     mk_world
       (<[p := RegularFile (concat_strings (format_frame <$> frames))]> (fs w))
       (unwritable w) (trace w ++ [ev_ofstream p])).
Proof.
  intros Hdir Hunw. unfold write_results, bind, ofstream_open.
  assert (forall m : result bool * world,
            (match fs w !! p with
             | Some (Directory _) => (Ok false, w)
             | _ => m
             end) = m) as Hskip.
  { intros m. destruct (fs w !! p) as [[entries|content]|] eqn:Hp; [|done..].
    by destruct (Hdir entries). }
  rewrite Hskip. rewrite bool_decide_eq_false_2 by done. simpl.
  rewrite (write_frames_run p EmptyString).
  - unfold record_event, set_file. simpl. by rewrite insert_insert_eq.
  - unfold record_event, set_file. simpl. apply lookup_insert_eq.
Qed.

End pipeline.

(** ** The driver *)

Section driver.
Context `{OpenCV} `{FmtLib}.

Lemma main_run (prog directory out : string) (w : world) :
  main [prog; directory; out] w =
    match analyse_frames directory w with
    | (Ok frames, w1) =>
        match write_results out frames w1 with
        | (Ok _, w2) => (EXIT_SUCCESS, w2)
        | (Throw e, w2) =>
            (EXIT_FAILURE, record_event (ev_cout (what e +:+ NEWLINE)) w2)
        end
    | (Throw e, w1) =>
        (EXIT_FAILURE, record_event (ev_cout (what e +:+ NEWLINE)) w1)
    end.
Proof.
  unfold main, parse_args, bind, ret. simpl.
  by destruct (analyse_frames directory w) as [[frames|e] w1].
Qed.


Lemma analyse_frames_empty_directory (directory : string) (w : world) :
  fs w !! directory = Some (Directory []) ->
  analyse_frames directory w = (Ok [], w).
Proof.
  intros Hdir. rewrite analyse_frames_run. unfold entry_paths.
  by rewrite Hdir.
Qed.

End driver.



(** C9.  A path whose frame number cannot be extracted makes
    [analyse_frame] fail with that very error, one of the two errors of
    the parser, and leaves the world untouched: the image is not read.
    In a run over a directory that lists such a path the run fails and
    the image at that path is never read. *)
Theorem analyse_frame_error_precedence `{OpenCV} `{FmtLib} (p : string)
    (e : exception) :
  extract_frame_number p default_frame_number_digits = Throw e ->
  (e = InvalidFileNameError p \/ e = FrameNumberParseError p) /\
  (forall w, analyse_frame p w = (Throw e, w)) /\
  (forall directory w r w',
     p ∈ entry_paths w directory ->
     analyse_frames directory w = (r, w') ->
     (exists e', r = Throw e') /\
     ev_imread p ∉ drop (length (trace w)) (trace w')).
Proof.
  intros Hname. split; [by apply extract_frame_number_errors in Hname|].
  split; [intros w; by rewrite analyse_frame_run, Hname|].
  intros directory w r w' Hp Hrun. split.
  - rewrite analyse_frames_run in Hrun. unfold entry_paths in Hp.
    destruct (fs w !! directory) as [[entries|content]|] eqn:Hdir;
      [|by apply elem_of_nil in Hp..].
    fold (entry_paths w directory) in Hp. unfold entry_paths in Hrun.
    rewrite Hdir in Hrun.
    destruct (for_each_entry (path_append directory <$> entries) [] w)
      as [[frames|e'] w1] eqn:Hloop; [|injection Hrun as <- _; eauto].
    apply for_each_entry_ok in Hloop as (new & _ & Hnew).
    apply list_elem_of_lookup in Hp as [i Hi].
    destruct (Forall2_lookup_l _ _ _ _ _ Hnew Hi) as (frame & _ & Hok).
    congruence.
  - apply analyse_frames_world in Hrun as (_ & _ & evs & -> & Hevs).
    rewrite drop_app_length. intros Hin.
    unfold parsed_reads in Hevs. rewrite Forall_forall in Hevs.
    destruct (Hevs _ Hin) as (q & n & [= <-] & _ & Hok). congruence.
Qed.

Lemma analyse_frame_error_precedence_sample :
  extract_frame_number "x.png" default_frame_number_digits
    = Throw (InvalidFileNameError "x.png") /\
  analyse_frame "x.png" Sample.sample_world
    = (Throw (InvalidFileNameError "x.png"), Sample.sample_world).
Proof.
  assert (extract_frame_number "x.png" default_frame_number_digits
          = Throw (InvalidFileNameError "x.png")) as Hname by (by vm_compute).
  split; [exact Hname|].
  exact (proj1 (proj2 (analyse_frame_error_precedence "x.png" _ Hname))
           Sample.sample_world).
Defined.

(** The error of the image decoder is only raised for a path whose frame
    number was extracted. *)
Lemma analyse_frame_decode_error `{OpenCV} `{FmtLib} (p q : string)
    (w w' : world) :
  analyse_frame p w = (Throw (ImageDecodeError q), w') ->
  q = p /\ exists n, extract_frame_number p default_frame_number_digits = Ok n.
Proof.
  rewrite analyse_frame_run.
  destruct (extract_frame_number p default_frame_number_digits) as [n|e]
    eqn:Hname.
  - destruct ((cols (image_at w p) =? 0)%nat || (rows (image_at w p) =? 0)%nat);
      [|done].
    intros [= <- _]. eauto.
  - intros [= -> _]. by apply extract_frame_number_errors in Hname as [|].
Qed.

(** C5.  When the result file can be opened, the writer succeeds and
    the file then holds one record per frame, in the order given, each
    the frame number, a tab, the sharpness and a newline; read back,
    the file has exactly these lines.  No frames give an empty file,
    which is what an existing directory without entries leads to. *)
Theorem write_results_lines `{OpenCV} `{FmtLib} (out : string)
    (frames : list frame_info) (w : world) :
  (forall entries, fs w !! out <> Some (Directory entries)) ->
  out ∉ unwritable w ->
  exists w' content,
    write_results out frames w = (Ok tt, w') /\
    fs w' = <[out := RegularFile content]> (fs w) /\
    content =
      concat_strings
        ((fun frame => format_size_t (number frame) +:+ TAB +:+
                       format_double (sharpness frame) +:+ NEWLINE)
           <$> frames) /\
    lines (chars content) =
      (fun frame => chars (format_size_t (number frame) +:+ TAB +:+
                           format_double (sharpness frame))) <$> frames /\
    (frames = [] -> content = EmptyString) /\
    (forall directory w0, fs w0 !! directory = Some (Directory []) ->
       analyse_frames directory w0 = (Ok [], w0)).
Proof.
  intros Hdir Hunw. eexists _, _.
  split; [by apply write_results_run|]. split; [done|].
  split; [done|]. split; [|split].
  - fold format_frame. rewrite lines_records.
    apply list_fmap_ext. intros _ frame _. unfold record_chars.
    by rewrite !chars_app.
  - by intros ->.
  - apply analyse_frames_empty_directory.
Qed.

Lemma write_results_lines_sample :
  (forall entries,
     fs Sample.sample_world !! "out.txt" <> Some (Directory entries)) /\
  ("out.txt" ∉ unwritable Sample.sample_world) /\
  exists w' content,
    write_results "out.txt"
      [mk_frame_info 1 (inject_Z 720); mk_frame_info 2 (inject_Z 0)]
      Sample.sample_world = (Ok tt, w') /\
    fs w' = <["out.txt" := RegularFile content]> (fs Sample.sample_world) /\
    content = "1" +:+ TAB +:+ "720" +:+ NEWLINE +:+
              "2" +:+ TAB +:+ "0" +:+ NEWLINE.
Proof.
  assert (forall entries,
            fs Sample.sample_world !! "out.txt" <> Some (Directory entries))
    as Hdir by (intros entries; by vm_compute).
  assert ("out.txt" ∉ unwritable Sample.sample_world) as Hunw
    by (by vm_compute).
  split; [exact Hdir|]. split; [exact Hunw|].
  destruct (write_results_lines "out.txt"
              [mk_frame_info 1 (inject_Z 720); mk_frame_info 2 (inject_Z 0)]
              Sample.sample_world Hdir Hunw)
    as (w' & content & Hrun & Hfs & Hcontent & _).
  exists w', content. split; [exact Hrun|]. split; [exact Hfs|].
  rewrite Hcontent. by vm_compute.
Defined.

(** C4.  When the collection step succeeds, the frames it returns are
    in non-decreasing order of their numbers, and these numbers are,
    up to order, the numbers parsed from the entries of the directory.
    The program then writes them in that order: the first fields of the
    lines of the result file are the sorted frame numbers. *)
Theorem analyse_frames_sorted `{OpenCV} `{FmtLib} (directory : string)
    (w w' : world) (frames : list frame_info) :
  analyse_frames directory w = (Ok frames, w') ->
  Sorted N.le (number <$> frames) /\
  (exists ns,
     Forall2 (fun entry n =>
                extract_frame_number entry default_frame_number_digits = Ok n)
       (entry_paths w directory) ns /\
     number <$> frames ≡ₚ ns) /\
  (forall prog out,
     (forall entries, fs w !! out <> Some (Directory entries)) ->
     out ∉ unwritable w ->
     exists w'' content,
       main [prog; directory; out] w = (EXIT_SUCCESS, w'') /\
       fs w'' !! out = Some (RegularFile content) /\
       first_fields content = format_size_t <$> (number <$> frames)).
Proof.
  intros Hrun. split; [|split].
  - rewrite analyse_frames_run in Hrun.
    destruct (fs w !! directory) as [[entries|content]|]; [|done..].
    destruct (for_each_entry (entry_paths w directory) [] w)
      as [[result|e] w1]; [|done].
    injection Hrun as <- _. apply (std_sort_keys_Sorted number).
  - rewrite analyse_frames_run in Hrun.
    destruct (fs w !! directory) as [[entries|content]|]; [|done..].
    destruct (for_each_entry (entry_paths w directory) [] w)
      as [[result|e] w1] eqn:Hloop; [|done].
    injection Hrun as <- _.
    apply for_each_entry_ok in Hloop as (new & -> & Hnew). simpl.
    exists (number <$> new). split.
    + by apply Forall2_fmap_r.
    + apply fmap_Permutation, (std_sort_Permutation number).
  - intros prog out Hdir Hunw. rewrite main_run, Hrun.
    apply analyse_frames_world in Hrun as (Hfs & Hu & _).
    rewrite write_results_run by (by rewrite ?Hfs, ?Hu).
    eexists _, _. split; [done|]. simpl.
    split; [apply lookup_insert_eq|].
    rewrite first_fields_records. by rewrite <- list_fmap_compose.
Qed.

Lemma analyse_frames_sorted_sample :
  (analyse_frames "frames" Sample.sample_world).1
    = Ok [mk_frame_info 1 (inject_Z 720); mk_frame_info 2 (inject_Z 0)] /\
  entry_paths Sample.sample_world "frames"
    = ["frames/f00002.png"; "frames/f00001.png"] /\
  Sorted N.le
    (number <$> [mk_frame_info 1 (inject_Z 720); mk_frame_info 2 (inject_Z 0)]).
Proof.
  split; [by vm_compute|]. split; [by vm_compute|].
  refine (proj1 (analyse_frames_sorted "frames" Sample.sample_world
                   (analyse_frames "frames" Sample.sample_world).2 _ _)).
  by vm_compute.
Defined.

(** * Further properties of the program *)

(** ** Notions *)

(** A path the loop body gets through: its frame number parses and its
    image decodes to a matrix with rows and columns. *)
Definition analysable `{OpenCV} (w : world) (p : string) : bool :=
  match extract_frame_number p default_frame_number_digits with
  | Ok _ => negb ((cols (image_at w p) =? 0)%nat || (rows (image_at w p) =? 0)%nat)
  | Throw _ => false
  end.

(** The world after the images at [paths] were read, in that order. *)
Definition after_reads (paths : list string) (w : world) : world :=
  mk_world (fs w) (unwritable w) (trace w ++ (ev_imread <$> paths)).

(** ** The loop over the entries, entry by entry *)

Section entries.
Context `{OpenCV} `{FmtLib}.

Lemma after_reads_nil (w : world) : after_reads [] w = w.
Proof. destruct w. unfold after_reads. simpl. by rewrite app_nil_r. Qed.

Lemma after_reads_cons (p : string) (paths : list string) (w : world) :
  after_reads paths (record_event (ev_imread p) w) = after_reads (p :: paths) w.
Proof. unfold after_reads, record_event. simpl. by rewrite <- app_assoc. Qed.

Lemma after_reads_snoc (p : string) (paths : list string) (w : world) :
  record_event (ev_imread p) (after_reads paths w) = after_reads (paths ++ [p]) w.
Proof.
  unfold after_reads, record_event. simpl.
  by rewrite fmap_app, <- app_assoc.
Qed.

Lemma analysable_after_reads (paths : list string) (w : world) (p : string) :
  analysable (after_reads paths w) p = analysable w p.
Proof. done. Qed.

(** On an analysable path the loop body returns the parsed number
    together with the maximum of the response grid of that very file. *)
Lemma analyse_frame_analysable (p : string) (w : world) :
  analysable w p = true ->
  exists frame,
    analyse_frame p w = (Ok frame, record_event (ev_imread p) w) /\
    extract_frame_number p default_frame_number_digits = Ok (number frame) /\
    sharpness frame = inject_Z (max_elem (data (response_grid (image_at w p)))).
Proof.
  unfold analysable. rewrite analyse_frame_run.
  destruct (extract_frame_number p default_frame_number_digits) as [n|e];
    [|done].
  destruct ((cols (image_at w p) =? 0)%nat || (rows (image_at w p) =? 0)%nat);
    [done|].
  intros _. by eexists.
Qed.

Lemma analyse_frame_not_analysable (p : string) (w : world) :
  analysable w p = false ->
  exists e w', analyse_frame p w = (Throw e, w') /\
    (w' = w \/ w' = record_event (ev_imread p) w).
Proof.
  unfold analysable. rewrite analyse_frame_run.
  destruct (extract_frame_number p default_frame_number_digits) as [n|e].
  - destruct ((cols (image_at w p) =? 0)%nat || (rows (image_at w p) =? 0)%nat);
      [|done].
    intros _. eexists _, _. split; [done | by right].
  - intros _. eexists _, _. split; [done | by left].
Qed.

(** The outcome of the loop body does not depend on the reads recorded
    before it. *)
Lemma analyse_frame_after_reads (paths : list string) (p : string) (w : world) :
  (analyse_frame p (after_reads paths w)).1 = (analyse_frame p w).1.
Proof.
  rewrite !analyse_frame_run.
  change (image_at (after_reads paths w) p) with (image_at w p).
  by destruct (extract_frame_number p default_frame_number_digits).
Qed.

(** When every entry is analysable the loop reads them all, in order,
    and appends one frame per entry. *)
Lemma for_each_entry_analysable (entries : list string) (acc : list frame_info)
    (w : world) :
  Forall (fun p => analysable w p = true) entries ->
  exists new,
    for_each_entry entries acc w = (Ok (acc ++ new), after_reads entries w) /\
    Forall2 (fun entry frame =>
               extract_frame_number entry default_frame_number_digits
                 = Ok (number frame) /\
               sharpness frame
                 = inject_Z (max_elem (data (response_grid (image_at w entry)))))
      entries new.
Proof.
  revert acc w. induction entries as [|entry rest IH]; intros acc w Hall.
  - exists []. simpl. unfold ret. rewrite app_nil_r, after_reads_nil.
    split; [done | constructor].
  - apply Forall_cons in Hall as [Hentry Hrest].
    destruct (analyse_frame_analysable entry w Hentry)
      as (frame & Hrun & Hnum & Hsharp).
    destruct (IH (acc ++ [frame]) (record_event (ev_imread entry) w))
      as (new & Hloop & Hnew); [done|].
    exists (frame :: new). simpl. unfold bind. rewrite Hrun, Hloop.
    rewrite <- app_assoc, after_reads_cons. split; [done|].
    by constructor.
Qed.

(** The loop stops at the first entry that is not analysable, with the
    error of that entry; the entries after it are not looked at. *)
Lemma for_each_entry_first_failure (pre post : list string) (p : string)
    (acc : list frame_info) (w : world) :
  Forall (fun q => analysable w q = true) pre ->
  analysable w p = false ->
  exists e w',
    for_each_entry (pre ++ p :: post) acc w = (Throw e, w') /\
    (analyse_frame p w).1 = Throw e /\
    (w' = after_reads pre w \/ w' = after_reads (pre ++ [p]) w).
Proof.
  revert acc w. induction pre as [|entry pre IH]; intros acc w Hpre Hp.
  - destruct (analyse_frame_not_analysable p w Hp) as (e & w' & Hrun & Hw').
    exists e, w'. simpl. unfold bind. rewrite Hrun. split; [done|].
    split; [done|]. rewrite after_reads_nil. unfold after_reads. simpl.
    destruct Hw' as [-> | ->]; [by left | by right].
  - apply Forall_cons in Hpre as [Hentry Hpre].
    destruct (analyse_frame_analysable entry w Hentry) as (frame & Hrun & _).
    destruct (IH (acc ++ [frame]) (record_event (ev_imread entry) w))
      as (e & w' & Hloop & He & Hw'); [done..|].
    exists e, w'. simpl. unfold bind. rewrite Hrun, Hloop.
    split; [done|]. split.
    + rewrite <- He. symmetry. apply (analyse_frame_after_reads [entry]).
    + rewrite !after_reads_cons in Hw'. done.
Qed.

(** Either every entry is analysable, or there is a first one that is not. *)
Lemma first_not_analysable (w : world) (entries : list string) :
  Forall (fun p => analysable w p = true) entries \/
  exists pre p post,
    entries = pre ++ p :: post /\
    Forall (fun q => analysable w q = true) pre /\ analysable w p = false.
Proof.
  induction entries as [|entry rest IH]; [left; constructor|].
  destruct (analysable w entry) eqn:Hentry.
  - destruct IH as [Hall | (pre & p & post & -> & Hpre & Hp)].
    + left. by constructor.
    + right. exists (entry :: pre), p, post. split; [done|].
      split; [by constructor | done].
  - right. exists [], entry, rest. split; [done|]. split; [constructor | done].
Qed.

(** A loop that succeeds went through analysable entries only. *)
Lemma for_each_entry_ok_analysable (entries : list string)
    (acc frames : list frame_info) (w w' : world) :
  for_each_entry entries acc w = (Ok frames, w') ->
  Forall (fun p => analysable w p = true) entries.
Proof.
  intros Hrun.
  destruct (first_not_analysable w entries)
    as [Hall | (pre & p & post & -> & Hpre & Hp)]; [done|].
  destruct (for_each_entry_first_failure pre post p acc w Hpre Hp)
    as (e & w1 & Hloop & _).
  by rewrite Hloop in Hrun.
Qed.

End entries.

(** ** The collection step as a whole *)


(** X2.  The frames the collection step returns are, up to order, one
    frame per directory entry (none dropped, none merged), and each
    frame pairs the number parsed from an entry's name with the maximum
    of the response grid of that same entry's image. *)
Theorem analyse_frames_pairs `{OpenCV} `{FmtLib} (directory : string)
    (w w' : world) (frames : list frame_info) :
  analyse_frames directory w = (Ok frames, w') ->
  exists collected,
    frames ≡ₚ collected /\
    length frames = length (entry_paths w directory) /\
    Forall2 (fun entry frame =>
               extract_frame_number entry default_frame_number_digits
                 = Ok (number frame) /\
               sharpness frame
                 = inject_Z (max_elem (data (response_grid (image_at w entry)))))
      (entry_paths w directory) collected.
Proof.
  intros Hrun. rewrite analyse_frames_run in Hrun.
  destruct (fs w !! directory) as [[entries|content]|]; [|done..].
  assert (Forall (fun p => analysable w p = true) (entry_paths w directory))
    as Hall.
  { destruct (for_each_entry (entry_paths w directory) [] w)
      as [[result|e] w1] eqn:Hloop; [|done].
    by apply for_each_entry_ok_analysable in Hloop. }
  destruct (for_each_entry_analysable _ [] w Hall) as (new & Hloop & Hnew).
  rewrite Hloop in Hrun. injection Hrun as <- _. simpl.
  exists new. split; [apply (std_sort_Permutation number)|]. split; [|done].
  rewrite (std_sort_Permutation number). symmetry.
  by eapply Forall2_length.
Qed.

(** Whatever its outcome, the collection step only adds the reads of a
    leading part of the entries, all of them when it succeeds. *)
Lemma analyse_frames_after_reads `{OpenCV} `{FmtLib} (directory : string)
    (w w' : world) (r : result (list frame_info)) :
  analyse_frames directory w = (r, w') ->
  exists paths,
    paths `prefix_of` entry_paths w directory /\
    w' = after_reads paths w /\
    (forall frames, r = Ok frames -> paths = entry_paths w directory).
Proof.
  rewrite analyse_frames_run.
  destruct (fs w !! directory) as [[entries|content]|] eqn:Hdir.
  2,3: intros [= <- <-]; exists []; split; [apply prefix_nil|];
       by rewrite after_reads_nil.
  destruct (first_not_analysable w (entry_paths w directory))
    as [Hall | (pre & p & post & Hsplit & Hpre & Hp)].
  - destruct (for_each_entry_analysable _ [] w Hall) as (new & Hloop & _).
    rewrite Hloop. intros [= <- <-]. by exists (entry_paths w directory).
  - rewrite Hsplit.
    destruct (for_each_entry_first_failure pre post p [] w Hpre Hp)
      as (e & w1 & Hloop & _ & Hw1).
    rewrite Hloop. intros [= <- <-].
    destruct Hw1 as [-> | ->].
    + exists pre. split; [by apply prefix_app_r|]. done.
    + exists (pre ++ [p]). split; [|done].
      change (pre ++ p :: post) with (pre ++ [p] ++ post).
      rewrite (app_assoc pre [p] post). by apply prefix_app_r.
Qed.

(** X3.  The collection step reads the images in the order of the
    enumeration and stops at the first failure: whatever the outcome,
    the reads it adds are those of the first [k] entries, for some [k],
    and of all entries when it succeeds.  It records nothing else and
    leaves the files as they were. *)
Theorem analyse_frames_reads_in_order `{OpenCV} `{FmtLib} (directory : string)
    (w w' : world) (r : result (list frame_info)) :
  analyse_frames directory w = (r, w') ->
  exists k,
    fs w' = fs w /\ unwritable w' = unwritable w /\
    trace w' = trace w ++ (ev_imread <$> take k (entry_paths w directory)) /\
    (forall frames, r = Ok frames ->
       take k (entry_paths w directory) = entry_paths w directory).
Proof.
  intros Hrun.
  apply analyse_frames_after_reads in Hrun as (paths & [rest Hpre] & -> & Hok).
  exists (length paths).
  assert (take (length paths) (entry_paths w directory) = paths) as Htake.
  { rewrite Hpre. apply take_app_length. }
  rewrite Htake. by do 3 (split; [done|]).
Qed.

(** X4.  The error of the collection step is the error of the first
    entry that fails: when the entries in front of [p] are analysable
    and analysing [p] fails with [e], the step fails with [e], whatever
    entries follow. *)
Theorem analyse_frames_first_failure `{OpenCV} `{FmtLib} (directory : string)
    (w : world) (pre post : list string) (p : string) (e : exception) :
  entry_paths w directory = pre ++ p :: post ->
  Forall (fun q => analysable w q = true) pre ->
  (analyse_frame p w).1 = Throw e ->
  (analyse_frames directory w).1 = Throw e.
Proof.
  intros Hsplit Hpre He.
  assert (analysable w p = false) as Hp.
  { destruct (analysable w p) eqn:Hp; [|done].
    destruct (analyse_frame_analysable p w Hp) as (frame & Hrun & _).
    by rewrite Hrun in He. }
  rewrite analyse_frames_run.
  destruct (fs w !! directory) as [[entries|content]|] eqn:Hdir.
  2,3: unfold entry_paths in Hsplit; rewrite Hdir in Hsplit;
       by destruct pre.
  rewrite Hsplit.
  destruct (for_each_entry_first_failure pre post p [] w Hpre Hp)
    as (e' & w1 & Hloop & He' & _).
  rewrite Hloop. simpl. congruence.
Qed.

(** ** The writer and the driver, case by case *)

Section outcomes.
Context `{OpenCV} `{FmtLib}.

(** A result path that is a directory, or that cannot be opened for
    writing, makes the writer fail before anything is written. *)
Lemma write_results_refused (p : string) (frames : list frame_info) (w : world) :
  (exists entries, fs w !! p = Some (Directory entries)) \/ p ∈ unwritable w ->
  write_results p frames w = (Throw (OutputWriteError p), w).
Proof.
  intros Href. unfold write_results, bind, ofstream_open.
  destruct (fs w !! p) as [[entries|content]|] eqn:Hp; [done|..];
    (destruct Href as [[entries [=]] | Hunw];
     by rewrite bool_decide_eq_true_2).
Qed.

Lemma write_results_cases (p : string) (frames : list frame_info) (w : world) :
  write_results p frames w = (Throw (OutputWriteError p), w) \/
  write_results p frames w =
    (Ok tt,
     mk_world
       (<[p := RegularFile (concat_strings (format_frame <$> frames))]> (fs w))
       (unwritable w) (trace w ++ [ev_ofstream p])).
Proof.
  destruct (decide (p ∈ unwritable w)) as [Hunw | Hunw].
  { left. apply write_results_refused. by right. }
  destruct (fs w !! p) as [[entries|content]|] eqn:Hp.
  { left. apply write_results_refused. left. by eexists. }
  all: right; apply write_results_run; [|done]; intros entries;
       by rewrite Hp.
Qed.

(** The runs of the driver on three arguments. *)
Lemma main_outcomes (prog directory out : string) (w : world) :
  exists paths,
    paths `prefix_of` entry_paths w directory /\
    ((exists e,
        main [prog; directory; out] w =
          (EXIT_FAILURE,
           record_event (ev_cout (what e +:+ NEWLINE)) (after_reads paths w))) \/
     (exists frames,
        (analyse_frames directory w).1 = Ok frames /\
        main [prog; directory; out] w =
          (EXIT_SUCCESS,
           mk_world
             (<[out := RegularFile (concat_strings (format_frame <$> frames))]>
                (fs w))
             (unwritable w)
             (trace w ++ (ev_imread <$> paths) ++ [ev_ofstream out])))).
Proof.
  rewrite main_run.
  destruct (analyse_frames directory w) as [r w1] eqn:Hrun.
  destruct (analyse_frames_after_reads _ _ _ _ Hrun) as (paths & Hpre & -> & _).
  exists paths. split; [done|].
  destruct r as [frames|e]; [|left; by exists e].
  destruct (write_results_cases out frames (after_reads paths w)) as [-> | ->].
  - left. by eexists.
  - right. exists frames. split; [done|]. simpl. by rewrite <- app_assoc.
Qed.

End outcomes.

(** X5.  Called with any number of arguments other than three, the
    program touches nothing: it prints the usage message and ends with
    the failure status. *)
Theorem main_invalid_arguments `{OpenCV} `{FmtLib} (argv : list string)
    (w : world) :
  length argv <> 3%nat ->
  main argv w =
    (EXIT_FAILURE,
     record_event (ev_cout (what InvalidArgumentsError +:+ NEWLINE)) w).
Proof.
  intros Hlen. by destruct argv as [|a0 [|a1 [|a2 [|a3 argv]]]].
Qed.

(** X6.  The program never leaves a partial result: either it fails and
    the file system is exactly as before, or it succeeds on three
    arguments and the only change is the result file, which then holds
    the records of all frames of the collection step. *)
Theorem main_all_or_nothing `{OpenCV} `{FmtLib} (argv : list string)
    (w : world) :
  unwritable (main argv w).2 = unwritable w /\
  (((main argv w).1 = EXIT_FAILURE /\ fs (main argv w).2 = fs w) \/
   ((main argv w).1 = EXIT_SUCCESS /\
    exists prog directory out frames,
      argv = [prog; directory; out] /\
      (analyse_frames directory w).1 = Ok frames /\
      fs (main argv w).2 =
        <[out := RegularFile (concat_strings (format_frame <$> frames))]>
          (fs w))).
Proof.
  destruct argv as [|prog [|directory [|out [|a3 argv]]]];
    try (split; [done | by left]).
  destruct (main_outcomes prog directory out w)
    as (paths & _ & [[e ->] | (frames & Hframes & ->)]).
  - split; [done | by left].
  - split; [done|]. right. split; [done|]. by eexists _, _, _, _.
Qed.

(** X7.  The program prints to the standard output exactly when it
    fails, and then one message: on success the events it adds hold no
    output, on failure the message of the error is the last event and
    the only output. *)
Theorem main_prints_iff_failure `{OpenCV} `{FmtLib} (argv : list string)
    (w : world) :
  exists evs,
    Forall (fun ev => forall text, ev <> ev_cout text) evs /\
    (((main argv w).1 = EXIT_SUCCESS /\ trace (main argv w).2 = trace w ++ evs) \/
     ((main argv w).1 = EXIT_FAILURE /\
      exists e,
        trace (main argv w).2
          = trace w ++ evs ++ [ev_cout (what e +:+ NEWLINE)])).
Proof.
  assert (forall paths : list string,
            Forall (fun ev => forall text, ev <> ev_cout text)
              (ev_imread <$> paths)) as Hreads.
  { intros paths. apply Forall_fmap, Forall_true. done. }
  destruct argv as [|prog [|directory [|out [|a3 argv]]]];
    try (exists []; split; [constructor|]; right; split; [done|];
         by exists InvalidArgumentsError).
  destruct (main_outcomes prog directory out w)
    as (paths & _ & [[e ->] | (frames & Hframes & ->)]).
  - exists (ev_imread <$> paths). split; [done|]. right. split; [done|].
    exists e. simpl. by rewrite <- app_assoc.
  - exists ((ev_imread <$> paths) ++ [ev_ofstream out]).
    split; [|by left].
    apply Forall_app. split; [done|]. by repeat constructor.
Qed.

(** X8.  When the collection step succeeds but the result path is a
    directory or cannot be opened for writing, the program fails with
    the output error only after every image was read, and changes no
    file. *)
Theorem main_output_refused `{OpenCV} `{FmtLib} (prog directory out : string)
    (w w1 : world) (frames : list frame_info) :
  analyse_frames directory w = (Ok frames, w1) ->
  (exists entries, fs w !! out = Some (Directory entries)) \/ out ∈ unwritable w ->
  main [prog; directory; out] w =
    (EXIT_FAILURE,
     record_event (ev_cout (what (OutputWriteError out) +:+ NEWLINE))
       (after_reads (entry_paths w directory) w)).
Proof.
  intros Hrun Href. rewrite main_run, Hrun.
  apply analyse_frames_after_reads in Hrun as (paths & _ & -> & Hok).
  rewrite (Hok frames eq_refl).
  by rewrite write_results_refused.
Qed.

(** ** More on the frame-number parser *)

Lemma digit_value_le (c : ascii) : is_digit c = true -> digit_value c <= 9.
Proof.
  unfold is_digit, digit_value. intros [H1 H2]%andb_prop.
  apply N.leb_le in H1, H2. lia.
Qed.

Lemma decimal_value_lt (ds : list ascii) :
  Forall (fun c => is_digit c = true) ds ->
  decimal_value ds < 10 ^ N.of_nat (length ds).
Proof.
  induction ds as [|c ds IH] using rev_ind; intros Hds; [by vm_compute|].
  apply Forall_app in Hds as [Hds Hc]. rewrite Forall_singleton in Hc.
  rewrite decimal_value_snoc, length_app. simpl.
  replace (N.of_nat (length ds + 1)) with (N.succ (N.of_nat (length ds))) by lia.
  rewrite N.pow_succ_r'. specialize (IH Hds). apply digit_value_le in Hc. lia.
Qed.

Lemma take_digits_digits (s : list ascii) :
  Forall (fun c => is_digit c = true) (take_digits s).
Proof.
  induction s as [|c s IH]; simpl; [constructor|].
  destruct (is_digit c) eqn:Hc; [by constructor | constructor].
Qed.

(** [from_chars] on a non-empty run of digits that fits, followed by
    text that does not continue the run. *)
Lemma from_chars_digits (ds rest : list ascii) (value : N) :
  Forall (fun c => is_digit c = true) ds -> ds <> [] ->
  decimal_value ds <= SIZE_MAX ->
  (rest = [] \/ exists c r, rest = c :: r /\ is_digit c = false) ->
  from_chars (ds ++ rest) value
  = (mk_from_chars_result (length ds) errc_ok, decimal_value ds).
Proof.
  intros Hds Hne Hfit Hrest. unfold from_chars.
  rewrite take_digits_app_stop, take_digits_all by done.
  destruct ds as [|d ds]; [done|]. cbv zeta.
  by destruct (N.leb_spec (decimal_value (d :: ds)) SIZE_MAX); [|lia].
Qed.

Lemma format_size_t_nonempty (n : N) : chars (format_size_t n) <> [].
Proof.
  rewrite format_size_t_chars, decimal_digits_step.
  by destruct (if n / 10 =? 0 then [] else _).
Qed.

(** X9.  A frame number the parser returns at width [W] has at most [W]
    digits: it is below [10 ^ W] (below 100000 at the default width),
    and it fits [std::size_t]. *)
Theorem extract_frame_number_bound (p : string) (W n : N) :
  str_length p <= SIZE_MAX ->
  str_length (extension p) + W <= SIZE_MAX ->
  extract_frame_number p W = Ok n ->
  n < 10 ^ W /\ n <= SIZE_MAX.
Proof.
  intros Hmax Hfit Hrun.
  destruct (N.le_gt_cases (str_length p) (str_length (extension p) + W))
    as [Hshort | Hlen].
  { by rewrite extract_frame_number_short_plain_sum in Hrun. }
  rewrite (extract_frame_number_field p W Hmax Hlen) in Hrun.
  pose proof (take_digits_digits (digit_field p W)) as Hds.
  pose proof (prefix_length _ _ (take_digits_prefix (digit_field p W))) as Hpl.
  destruct (digit_field_split p W Hlen) as [_ Hfl].
  apply decimal_value_lt in Hds.
  destruct (take_digits (digit_field p W)) as [|d ds]; [done|].
  cbv zeta in Hrun.
  destruct (N.leb_spec (decimal_value (d :: ds)) SIZE_MAX) as [Hv|]; [|done].
  injection Hrun as <-. split; [|done].
  eapply N.lt_le_trans; [exact Hds|].
  apply N.pow_le_mono_r; lia.
Qed.

Lemma extract_frame_number_bound_frame00042 :
  extract_frame_number "frame00042.png" 5 = Ok 42 /\
  (42 < 10 ^ 5 /\ 42 <= SIZE_MAX).
Proof.
  assert (extract_frame_number "frame00042.png" 5 = Ok 42) as Hrun
    by (by vm_compute).
  split; [exact Hrun|].
  apply (extract_frame_number_bound "frame00042.png" 5 42);
    [by vm_compute | by vm_compute | exact Hrun].
Defined.

(** ** More on the writer *)

(** X10.  What the writer puts on a line reads back: [from_chars] on
    each line of the written file consumes exactly the digits of the
    first field and yields the frame number of the frame the line was
    written for. *)
Theorem write_results_read_back `{OpenCV} `{FmtLib} (out : string)
    (frames : list frame_info) (w : world) :
  (forall entries, fs w !! out <> Some (Directory entries)) ->
  out ∉ unwritable w ->
  Forall (fun frame => number frame <= SIZE_MAX) frames ->
  exists w' content,
    write_results out frames w = (Ok tt, w') /\
    fs w' !! out = Some (RegularFile content) /\
    Forall2 (fun line frame =>
               from_chars line 0 =
                 (mk_from_chars_result
                    (length (chars (format_size_t (number frame)))) errc_ok,
                  number frame))
      (lines (chars content)) frames.
Proof.
  intros Hdir Hunw Hfit. eexists _, _.
  split; [by apply write_results_run|]. simpl.
  split; [apply lookup_insert_eq|].
  rewrite lines_records. apply Forall2_fmap_l, Forall_Forall2_diag.
  eapply Forall_impl; [exact Hfit|]. intros frame Hframe. simpl.
  unfold record_chars.
  rewrite from_chars_digits.
  - by rewrite decimal_value_format_size_t.
  - apply format_size_t_digits.
  - apply format_size_t_nonempty.
  - by rewrite decimal_value_format_size_t.
  - right. by eexists _, _.
Qed.

(** X11.  The writer replaces, it does not append: writing a second
    sequence to the same path leaves the files exactly as if only the
    second sequence had been written. *)
Theorem write_results_overwrites `{OpenCV} `{FmtLib} (out : string)
    (frames1 frames2 : list frame_info) (w : world) :
  (forall entries, fs w !! out <> Some (Directory entries)) ->
  out ∉ unwritable w ->
  exists w1 w2,
    write_results out frames1 w = (Ok tt, w1) /\
    write_results out frames2 w1 = (Ok tt, w2) /\
    fs w2 = fs (write_results out frames2 w).2 /\
    fs w2 !! out
      = Some (RegularFile (concat_strings (format_frame <$> frames2))).
Proof.
  intros Hdir Hunw. eexists _, _.
  split; [by apply write_results_run|].
  rewrite (write_results_run out frames2 w) by done.
  rewrite write_results_run; simpl; [|intros entries|done].
  2:{ by rewrite lookup_insert_eq. }
  split; [done|]. rewrite insert_insert_eq.
  split; [done | apply lookup_insert_eq].
Qed.

(** ** More on a single frame *)

(** X12.  A path whose frame number parses but which is no regular
    file, or whose bytes do not decode, or decode to a matrix without
    rows or columns, fails with the image error of that path, after the
    read was attempted. *)
Theorem analyse_frame_decode_failure `{OpenCV} `{FmtLib} (p : string) (n : N)
    (w : world) :
  extract_frame_number p default_frame_number_digits = Ok n ->
  (forall bytes m,
     fs w !! p = Some (RegularFile bytes) -> imdecode bytes = Some m ->
     rows m = 0%nat \/ cols m = 0%nat) ->
  analyse_frame p w
  = (Throw (ImageDecodeError p), record_event (ev_imread p) w).
Proof.
  intros Hname Himg. rewrite analyse_frame_run, Hname.
  assert ((cols (image_at w p) =? 0)%nat || (rows (image_at w p) =? 0)%nat = true)
    as ->; [|done].
  unfold image_at.
  destruct (fs w !! p) as [[entries|bytes]|]; [done| |done].
  destruct (imdecode bytes) as [m|] eqn:Hm; [|done]. simpl.
  destruct (Himg bytes m eq_refl Hm) as [-> | ->]; [|done].
  apply orb_true_r.
Qed.


(** ** The properties on sample worlds *)

(** A directory with a note between two frames; the second frame has no
    file behind it. *)
Definition sample_world_mixed : world :=
  mk_world
    (<["mixed" := Directory ["f00001.png"; "notes.txt"; "f00003.png"]]>
     (<["mixed/f00001.png" :=
          RegularFile (Sample.raw_image [1; 3; 0;0;0; 90;90;90; 0;0;0])]> ∅))%nat
    ∅ [].

Lemma analyse_frames_pairs_sample :
  (analyse_frames "frames" Sample.sample_world).1
    = Ok [mk_frame_info 1 (inject_Z 720); mk_frame_info 2 (inject_Z 0)] /\
  exists collected,
    [mk_frame_info 1 (inject_Z 720); mk_frame_info 2 (inject_Z 0)]
      ≡ₚ collected /\
    length [mk_frame_info 1 (inject_Z 720); mk_frame_info 2 (inject_Z 0)]
      = length (entry_paths Sample.sample_world "frames") /\
    Forall2 (fun entry frame =>
               extract_frame_number entry default_frame_number_digits
                 = Ok (number frame) /\
               sharpness frame
                 = inject_Z (max_elem (data (response_grid
                                 (image_at Sample.sample_world entry)))))
      (entry_paths Sample.sample_world "frames") collected.
Proof.
  split; [by vm_compute|].
  refine (analyse_frames_pairs "frames" Sample.sample_world
            (analyse_frames "frames" Sample.sample_world).2 _ _).
  by vm_compute.
Defined.

Lemma analyse_frames_reads_in_order_sample :
  (analyse_frames "mixed" sample_world_mixed).1
    = Throw (FrameNumberParseError "mixed/notes.txt") /\
  trace (analyse_frames "mixed" sample_world_mixed).2
    = [ev_imread "mixed/f00001.png"] /\
  exists k,
    trace (analyse_frames "mixed" sample_world_mixed).2
      = trace sample_world_mixed
        ++ (ev_imread <$> take k (entry_paths sample_world_mixed "mixed")).
Proof.
  split; [by vm_compute|]. split; [by vm_compute|].
  destruct (analyse_frames_reads_in_order "mixed" sample_world_mixed
              (analyse_frames "mixed" sample_world_mixed).2
              (analyse_frames "mixed" sample_world_mixed).1)
    as (k & _ & _ & Htrace & _).
  - by vm_compute.
  - exists k. exact Htrace.
Defined.

Lemma analyse_frames_first_failure_sample :
  entry_paths sample_world_mixed "mixed"
    = ["mixed/f00001.png"] ++ "mixed/notes.txt" :: ["mixed/f00003.png"] /\
  (analyse_frames "mixed" sample_world_mixed).1
    = Throw (FrameNumberParseError "mixed/notes.txt").
Proof.
  assert (entry_paths sample_world_mixed "mixed"
          = ["mixed/f00001.png"] ++ "mixed/notes.txt" :: ["mixed/f00003.png"])
    as Hsplit by (by vm_compute).
  split; [exact Hsplit|].
  apply (analyse_frames_first_failure "mixed" sample_world_mixed
           ["mixed/f00001.png"] ["mixed/f00003.png"] "mixed/notes.txt");
    [exact Hsplit | by repeat constructor | by vm_compute].
Defined.

Lemma main_invalid_arguments_sample :
  length ["autofocus"; "frames"] <> 3%nat /\
  main ["autofocus"; "frames"] Sample.sample_world =
    (EXIT_FAILURE,
     record_event (ev_cout (what InvalidArgumentsError +:+ NEWLINE))
       Sample.sample_world).
Proof.
  assert (length ["autofocus"; "frames"] <> 3%nat) as Hlen by (simpl; lia).
  split; [exact Hlen|].
  exact (main_invalid_arguments ["autofocus"; "frames"] Sample.sample_world Hlen).
Defined.

Lemma main_output_refused_sample :
  (main ["autofocus"; "frames"; "frames"] Sample.sample_world).1 = EXIT_FAILURE /\
  trace (main ["autofocus"; "frames"; "frames"] Sample.sample_world).2
    = [ev_imread "frames/f00002.png"; ev_imread "frames/f00001.png";
       ev_cout (what (OutputWriteError "frames") +:+ NEWLINE)].
Proof.
  assert (main ["autofocus"; "frames"; "frames"] Sample.sample_world =
            (EXIT_FAILURE,
             record_event (ev_cout (what (OutputWriteError "frames") +:+ NEWLINE))
               (after_reads (entry_paths Sample.sample_world "frames")
                  Sample.sample_world))) as Hmain.
  { refine (main_output_refused "autofocus" "frames" "frames"
              Sample.sample_world
              (analyse_frames "frames" Sample.sample_world).2
              [mk_frame_info 1 (inject_Z 720); mk_frame_info 2 (inject_Z 0)]
              _ _).
    - by vm_compute.
    - left. eexists. by vm_compute. }
  rewrite Hmain. split; by vm_compute.
Defined.

Lemma write_results_read_back_sample :
  exists w' content,
    write_results "out.txt"
      [mk_frame_info 1 (inject_Z 720); mk_frame_info 2 (inject_Z 0)]
      Sample.sample_world = (Ok tt, w') /\
    fs w' !! "out.txt" = Some (RegularFile content) /\
    Forall2 (fun line frame =>
               from_chars line 0 =
                 (mk_from_chars_result
                    (length (chars (format_size_t (number frame)))) errc_ok,
                  number frame))
      (lines (chars content))
      [mk_frame_info 1 (inject_Z 720); mk_frame_info 2 (inject_Z 0)].
Proof.
  apply (write_results_read_back "out.txt"
           [mk_frame_info 1 (inject_Z 720); mk_frame_info 2 (inject_Z 0)]
           Sample.sample_world).
  - intros entries. by vm_compute.
  - by vm_compute.
  - repeat constructor; by vm_compute.
Defined.

Lemma write_results_overwrites_sample :
  exists w1 w2,
    write_results "out.txt" [mk_frame_info 7 (inject_Z 3)] Sample.sample_world
      = (Ok tt, w1) /\
    write_results "out.txt" [mk_frame_info 1 (inject_Z 720)] w1 = (Ok tt, w2) /\
    fs w2 = fs (write_results "out.txt" [mk_frame_info 1 (inject_Z 720)]
                  Sample.sample_world).2 /\
    fs w2 !! "out.txt"
      = Some (RegularFile
                (concat_strings (format_frame <$> [mk_frame_info 1 (inject_Z 720)]))).
Proof.
  apply (write_results_overwrites "out.txt" [mk_frame_info 7 (inject_Z 3)]
           [mk_frame_info 1 (inject_Z 720)] Sample.sample_world).
  - intros entries. by vm_compute.
  - by vm_compute.
Defined.

Lemma analyse_frame_decode_failure_sample :
  extract_frame_number "mixed/f00003.png" default_frame_number_digits = Ok 3 /\
  analyse_frame "mixed/f00003.png" sample_world_mixed
  = (Throw (ImageDecodeError "mixed/f00003.png"),
     record_event (ev_imread "mixed/f00003.png") sample_world_mixed).
Proof.
  assert (extract_frame_number "mixed/f00003.png" default_frame_number_digits
          = Ok 3) as Hname by (by vm_compute).
  split; [exact Hname|].
  apply (analyse_frame_decode_failure "mixed/f00003.png" 3 sample_world_mixed
           Hname).
  intros bytes m Hfile. by vm_compute in Hfile.
Defined.
